(** * AR_practice: marker detection, tracking state machine, playback, asset cache

    A shallow embedding of the JavaScript sources of the AR demo
    (src/detector.js in its two versions, src/main.js in its two versions,
    src/assetLoader.js) together with the properties the specification
    states about them.

    JavaScript numbers are modelled by exact integers and rationals
    (pixel counts and coordinate sums are small integers; the only
    quotients taken are compared against a threshold or reported as a
    centroid), with NaN and the infinities kept as separate values. *)

From Stdlib Require Import ZArith QArith Qabs Lia Lqa Bool.
From stdpp Require Import base option list gmap strings sorting.

Local Open Scope Z_scope.

(** ** JavaScript numbers *)

Module JS.

(** A JavaScript number: a finite value, NaN, or a signed infinity. *)
Inductive jsnum : Type :=
| JNum (q : Q)
| JNaN
| JInf (negative : bool).

(** [a / b] on integer-valued operands ([0 / 0] is NaN, [a / 0] an
    infinity; nothing is thrown). *)
Definition jsdiv (a b : Z) : jsnum :=
  if b =? 0 then (if a =? 0 then JNaN else JInf (a <? 0))
  else JNum (Qmake (a * Z.sgn b) (Z.to_pos (Z.abs b))).

(** [v > c]: false whenever [v] is NaN. *)
Definition jsgt (v : jsnum) (c : Q) : bool :=
  match v with
  | JNum q => negb (Qle_bool q c)
  | JNaN => false
  | JInf negative => negb negative
  end.

(** Unary minus and multiplication by a finite non-zero constant. *)
Definition jsneg (v : jsnum) : jsnum :=
  match v with
  | JNum q => JNum (Qopp q)
  | JNaN => JNaN
  | JInf negative => JInf (negb negative)
  end.

Definition jsscale (v : jsnum) (c : Q) : jsnum :=
  match v with
  | JNum q => JNum (Qmult q c)
  | JNaN => JNaN
  | JInf negative => JInf (xorb negative (negb (Qle_bool 0 c)))
  end.


(** Equality of numbers as values (rationals up to [Qeq]). *)
Definition jseq (v w : jsnum) : Prop :=
  match v, w with
  | JNum p, JNum q => Qeq p q
  | JInf a, JInf b => a = b
  | _, _ => False
  end.

(** A typed array (Uint8ClampedArray) read at a numeric index: [None] is
    [undefined], the result of reading outside [0, length). *)
Definition aget (a : list Z) (i : Z) : option Z :=
  if i <? 0 then None else a !! Z.to_nat i.

(** A typed array write: silently ignored outside [0, length). *)
Definition aset (a : list Z) (i : Z) (v : Z) : list Z :=
  if i <? 0 then a else <[Z.to_nat i := v]> a.

(** Truthiness of an array read: [undefined] and [0] are falsy. *)
Definition truthy (v : option Z) : bool :=
  match v with Some n => negb (n =? 0) | None => false end.

(** [v > c] and [v < c] for a possibly undefined byte: comparisons with
    [undefined] are false. *)
Definition ogt (v : option Z) (c : Z) : bool :=
  match v with Some n => c <? n | None => false end.
Definition olt (v : option Z) (c : Z) : bool :=
  match v with Some n => n <? c | None => false end.

End JS.

(** ** The detectors (src/detector.js) *)

Module Detector.
Import JS.

(** The [ImageData] handed to the scan: [data] holds four bytes (RGBA)
    per pixel, row by row. *)
Record ImageData : Type := mkImageData {
  width : nat;
  height : nat;
  data : list Z
}.

(** What [getImageData] guarantees about the buffer. *)
Definition well_formed (img : ImageData) : Prop :=
  length (data img) = (4 * (width img * height img))%nat.

(** The video element as the detectors see it. *)
Record VideoElement : Type := mkVideoElement {
  readyState : nat;
  frame : ImageData
}.

Definition HAVE_ENOUGH_DATA : nat := 4%nat.

(** [r > 200 && g < 100 && b < 100] *)
Definition isRed (r g b : option Z) : bool :=
  ogt r 200 && olt g 100 && olt b 100.

(** The marker-colour test on pixel number [k] of a buffer. *)
Definition redAt (d : list Z) (k : nat) : bool :=
  isRed (d !! (4 * k)%nat) (d !! (4 * k + 1)%nat) (d !! (4 * k + 2)%nat).

(** *** Single-ratio variant *)

(** The scan [for (i = 0; i < data.length; i += 4)] of the ratio
    variant, walking the buffer four bytes at a time; a trailing partial
    group still has its [r] read, the missing bytes being undefined. *)
Fixpoint countRed (d : list Z) (redCount : Z) : Z :=
  match d with
  | [] => redCount
  | r :: rest =>
      let redCount' :=
        if isRed (Some r) (rest !! 0%nat) (rest !! 1%nat)
        then redCount + 1 else redCount in
      match rest with
      | _ :: _ :: _ :: rest' => countRed rest' redCount'
      | _ => redCount'
      end
  end.

Record RatioResult : Type := mkRatioResult {
  found : bool;
  pose : option (list Z * list Z)   (* rvec, tvec *)
}.

Definition notFound : RatioResult := mkRatioResult false None.

Definition detectRatioFrame (img : ImageData) : RatioResult :=
  let redCount := countRed (data img) 0 in
  let totalPixels := Z.of_nat (width img) * Z.of_nat (height img) in
  let redRatio := jsdiv redCount totalPixels in
  if jsgt redRatio (Qmake 1 100)
  then mkRatioResult true (Some ([0; 0; 0], [0; 0; 1]))
  else notFound.

(** [detect] of the first version of detector.js. *)
Definition detectRatio (v : VideoElement) : RatioResult :=
  if negb (readyState v =? HAVE_ENOUGH_DATA)%nat then notFound
  else detectRatioFrame (frame v).

(** *** Multi-cluster variant *)

(** The red pixel map: a zero-filled array of [width * height] entries in
    which entry [i / 4] is set to 1 for every group that passes the test.
    [k] is the running value of [i / 4]. *)
Fixpoint fillRedMap (d : list Z) (k : Z) (redMap : list Z) : list Z :=
  match d with
  | [] => redMap
  | r :: rest =>
      let redMap' :=
        if isRed (Some r) (rest !! 0%nat) (rest !! 1%nat)
        then aset redMap k 1 else redMap in
      match rest with
      | _ :: _ :: _ :: rest' => fillRedMap rest' (k + 1) redMap'
      | _ => redMap'
      end
  end.

Record Cluster : Type := mkCluster {
  pixels : list Z;
  centerX : jsnum;
  centerY : jsnum
}.

Record Detection : Type := mkDetection {
  x : jsnum;
  y : jsnum;
  size : nat;
  pixelCount : nat;
  rvec : list Z;
  tvec : list Z
}.

(** The four neighbour indices in the order the source lists them. *)
Definition neighbors (idx w : Z) : list Z :=
  [idx - 1; idx + 1; idx - w; idx + w].

(** The [for (const nIdx of neighbors)] loop: push every in-range red
    unvisited neighbour on the queue. *)
Definition pushNeighbors (w h : Z) (redMap visited : list Z)
    (ns : list Z) (queue : list Z) : list Z :=
  fold_left
    (fun q nIdx =>
       if (0 <=? nIdx) && (nIdx <? w * h)
          && truthy (aget redMap nIdx) && negb (truthy (aget visited nIdx))
       then q ++ [nIdx] else q)
    ns queue.

(** State of the [while (queue.length > 0)] loop of [floodFill]. *)
Record FillState : Type := mkFillState {
  fs_queue : list Z;
  fs_visited : list Z;
  fs_pixels : list Z;
  fs_sumX : Z;
  fs_sumY : Z
}.

(** One iteration of the loop body (the queue is not empty). *)
Definition fillStep (w h : Z) (redMap : list Z) (idx : Z) (st : FillState)
    : FillState :=
  if truthy (aget (fs_visited st) idx) then st
  else
    let visited' := aset (fs_visited st) idx 1 in
    let y := idx / w in
    let x := idx mod w in
    mkFillState
      (pushNeighbors w h redMap visited' (neighbors idx w) (fs_queue st))
      visited'
      (fs_pixels st ++ [idx])
      (fs_sumX st + x)
      (fs_sumY st + y).

(** The loop itself; [fuel] bounds the number of iterations, and
    [floodFill_total] below shows the bound used by [findRedMarkers]
    is never reached. *)
Fixpoint fillLoop (fuel : nat) (w h : Z) (redMap : list Z) (st : FillState)
    : option FillState :=
  match fuel with
  | O => None
  | S fuel' =>
      match fs_queue st with
      | [] => Some st
      | idx :: queue' =>
          fillLoop fuel' w h redMap
            (fillStep w h redMap idx
               (mkFillState queue' (fs_visited st) (fs_pixels st)
                  (fs_sumX st) (fs_sumY st)))
      end
  end.

(** [floodFill(startIdx, width, height, redMap, visited)]: returns the
    cluster together with the [visited] array it has mutated. *)
Definition floodFill (fuel : nat) (startIdx w h : Z)
    (redMap visited : list Z) : option (Cluster * list Z) :=
  match fillLoop fuel w h redMap (mkFillState [startIdx] visited [] 0 0) with
  | None => None
  | Some st =>
      let n := Z.of_nat (length (fs_pixels st)) in
      Some (mkCluster (fs_pixels st)
              (jsdiv (fs_sumX st) n) (jsdiv (fs_sumY st) n),
            fs_visited st)
  end.

(** Iterations granted to one flood fill over [n] pixels. *)
Definition fillFuel (n : nat) : nat := (4 * n + 2)%nat.

(** The labelling loop [for (idx = 0; idx < width * height; idx++)],
    over the indices still to be examined. *)
Fixpoint labelLoop (idxs : list Z) (w h : Z) (redMap visited : list Z)
    (clusters : list Cluster) : option (list Cluster) :=
  match idxs with
  | [] => Some clusters
  | idx :: idxs' =>
      if truthy (aget redMap idx) && negb (truthy (aget visited idx)) then
        match floodFill (fillFuel (length visited)) idx w h redMap visited with
        | None => None
        | Some (cluster, visited') =>
            labelLoop idxs' w h redMap visited'
              (if (20 <? length (pixels cluster))%nat
               then clusters ++ [cluster] else clusters)
        end
      else labelLoop idxs' w h redMap visited clusters
  end.

(** [clusters.sort((a, b) => b.pixels.length - a.pixels.length)]: the
    stable sort by descending pixel count, written as insertion. *)
Fixpoint insertCluster (c : Cluster) (l : list Cluster) : list Cluster :=
  match l with
  | [] => [c]
  | d :: l' =>
      if (length (pixels d) <=? length (pixels c))%nat then c :: d :: l'
      else d :: insertCluster c l'
  end.

Definition sortClusters (l : list Cluster) : list Cluster :=
  foldr insertCluster [] l.

Definition toDetection (c : Cluster) : Detection :=
  mkDetection (centerX c) (centerY c)
    (length (pixels c)) (length (pixels c)) [0; 0; 0] [0; 0; 1].

(** The clusters found in a frame, before sorting and truncation. *)
Definition findClusters (img : ImageData) : option (list Cluster) :=
  let w := Z.of_nat (width img) in
  let h := Z.of_nat (height img) in
  let n := (width img * height img)%nat in
  let redMap := fillRedMap (data img) 0 (replicate n 0) in
  let visited := replicate n 0 in
  labelLoop (seqZ 0 (w * h)) w h redMap visited [].

(** The clusters kept by [findRedMarkers], in output order. *)
Definition keptClusters (img : ImageData) (maxMarkers : nat)
    : option (list Cluster) :=
  match findClusters img with
  | None => None
  | Some clusters => Some (take maxMarkers (sortClusters clusters))
  end.

Definition findRedMarkers (img : ImageData) (maxMarkers : nat)
    : option (list Detection) :=
  match keptClusters img maxMarkers with
  | None => None
  | Some kept => Some (toDetection <$> kept)
  end.

(** [detect] of the second version of detector.js. *)
Definition detect (v : VideoElement) : option (list Detection) :=
  if negb (readyState v =? HAVE_ENOUGH_DATA)%nat then Some []
  else findRedMarkers (frame v) 4.

(** *** Test frames *)

Definition redPixel : list Z := [255; 0; 0; 255].
Definition blackPixel : list Z := [0; 0; 0; 255].

(** A [w] by [h] frame whose pixel [(px, py)] is red exactly when
    [red px py] holds. *)
Definition paintPixel (red : nat -> nat -> bool) (py px : nat) : list Z :=
  if red px py then redPixel else blackPixel.

Definition paintRow (w : nat) (red : nat -> nat -> bool) (py : nat) : list Z :=
  mjoin (paintPixel red py <$> seq 0 w).

Definition paint (w h : nat) (red : nat -> nat -> bool) : ImageData :=
  mkImageData w h (mjoin (paintRow w red <$> seq 0 h)).

Definition inSquare (lo hi : nat) (px py : nat) : bool :=
  ((lo <=? px) && (px <? hi) && (lo <=? py) && (py <? hi))%nat.

(** The 100x100 scenario frame: a red square of 20x20 = 400 pixels with
    corners (10,10) and (30,30). *)
Definition squareFrame : ImageData := paint 100 100 (inSquare 10 30).

End Detector.

Import JS Detector.

(** ** Effects, exceptions and the state-and-exception monad *)

Module Eff.

(** What a tick does to the outside world, in the order it does it. *)
Inductive Effect : Type :=
| RequestFrame                 (* requestAnimationFrame(this.animate) *)
| MarkerFound                  (* onMarkerFound() is entered *)
| MarkerLost                   (* onMarkerLost() is entered *)
| VideoPlay                    (* video.play() *)
| VideoPause                   (* video.pause() *)
| Render                       (* renderer.render(scene, camera) *)
| ConsoleError (msg : string). (* console.error in the tick's catch *)

(** A thrown value, identified by its message. *)
Definition Exn : Type := string.

Inductive Completion (A : Type) : Type :=
| Normal (a : A)
| Thrown (e : Exn).
Arguments Normal {A} a.
Arguments Thrown {A} e.

(** A computation over a mutable state [St]: it completes normally or
    abruptly, and in both cases leaves the state as mutated so far and the
    effects performed so far. *)
Definition M (St A : Type) : Type := St -> Completion A * St * list Effect.

Definition ret {St A} (a : A) : M St A := fun s => (Normal a, s, []).

Definition bind {St A B} (m : M St A) (k : A -> M St B) : M St B :=
  fun s =>
    match m s with
    | (Normal a, s1, e1) =>
        match k a s1 with (r, s2, e2) => (r, s2, e1 ++ e2) end
    | (Thrown e, s1, e1) => (Thrown e, s1, e1)
    end.

Definition throw {St A} (e : Exn) : M St A := fun s => (Thrown e, s, []).

(** [try { m } catch (e) { h e }] *)
Definition tryCatch {St A} (m : M St A) (h : Exn -> M St A) : M St A :=
  fun s =>
    match m s with
    | (Normal a, s1, e1) => (Normal a, s1, e1)
    | (Thrown e, s1, e1) =>
        match h e s1 with (r, s2, e2) => (r, s2, e1 ++ e2) end
    end.

Definition get {St} : M St St := fun s => (Normal s, s, []).
Definition modify {St} (f : St -> St) : M St unit := fun s => (Normal tt, f s, []).
Definition emit {St} (e : Effect) : M St unit := fun s => (Normal tt, s, [e]).

Definition when {St} (b : bool) (m : M St unit) : M St unit :=
  if b then m else ret tt.

(** A call into a collaborator (canvas, tracking library, renderer) whose
    outcome the environment decides. *)
Definition external {St A} (r : Completion A) : M St A :=
  match r with
  | Normal a => ret a
  | Thrown e => throw e
  end.

(** The marker events among the effects of a tick. *)
Definition isMarkerEvent (e : Effect) : bool :=
  match e with MarkerFound | MarkerLost => true | _ => false end.

Definition markerEvents (es : list Effect) : list Effect :=
  List.filter isMarkerEvent es.


(** Run a tick function over a sequence of per-tick inputs, recording for
    every tick the state before, the effects and the state after. *)
Fixpoint runTicks {St In} (tick : In -> St -> St * list Effect)
    (s : St) (inputs : list In) : list (St * list Effect * St) :=
  match inputs with
  | [] => []
  | i :: inputs' =>
      let '(s', es) := tick i s in
      (s, es, s') :: runTicks tick s' inputs'
  end.

End Eff.

Declare Scope js_scope.
Delimit Scope js_scope with js.
Notation "'let*' x ':=' m 'in' k" := (Eff.bind m (fun x => k))
  (at level 10, x name, m at level 100, k at level 200) : js_scope.
Notation "m >> k" := (Eff.bind m (fun _ => k))
  (at level 100, k at level 200, right associativity) : js_scope.

(** ** DOM objects both applications share *)

Module Dom.
Import JS.

(** A video element, as far as playback control sees it. *)
Record Video : Type := mkVideo {
  paused : bool;
  currentTime : Q
}.

(** [video.pause()] and [video.play()]; neither moves the playback
    position. *)
Definition pause (v : Video) : Video := mkVideo true (currentTime v).
Definition play (v : Video) : Video := mkVideo false (currentTime v).

(** A mesh carrying a video: [userData.videoElement] may be absent. *)
Record Mesh : Type := mkMesh {
  visible : bool;
  userDataVideo : option Video
}.

Definition setVisible (b : bool) (m : Mesh) : Mesh :=
  mkMesh b (userDataVideo m).
Definition setVideo (v : option Video) (m : Mesh) : Mesh :=
  mkMesh (visible m) v.

End Dom.

(** ** The first application (src/main.js, first version) *)

Module Legacy.
Import JS Eff Dom.
Local Open Scope js_scope.

(** What [detector.detect()] hands to [detectMarker]: [None] is a falsy
    result; the vectors may be missing ([undefined]). *)
Record DetectionResult : Type := mkDetectionResult {
  found : bool;
  rvec : option (list jsnum);
  tvec : option (list jsnum)
}.

(** The arguments [calculateModelViewMatrix] passes to the [THREE.Euler]
    constructor and to [setPosition]; the matrix returned is the one
    three.js builds from them. The third Euler angle is handed over as
    read, so it may be [undefined] ([None]). *)
Record ModelView : Type := mkModelView {
  eulerX : jsnum;
  eulerY : jsnum;
  eulerZ : option jsnum;
  posX : jsnum;
  posY : jsnum;
  posZ : jsnum
}.

Record App : Type := mkApp {
  isTracking : bool;
  arVideo : Mesh;
  cameraPose : option ModelView;   (* last matrix loaded into the camera *)
  arVideoPose : option ModelView;  (* last matrix copied onto the video plane *)
  debugInfo : string
}.

Definition setTracking (b : bool) (a : App) : App :=
  mkApp b (arVideo a) (cameraPose a) (arVideoPose a) (debugInfo a).
Definition setArVideo (m : Mesh) (a : App) : App :=
  mkApp (isTracking a) m (cameraPose a) (arVideoPose a) (debugInfo a).
Definition setPoses (p : ModelView) (a : App) : App :=
  mkApp (isTracking a) (arVideo a) (Some p) (Some p) (debugInfo a).
Definition setDebugInfo (t : string) (a : App) : App :=
  mkApp (isTracking a) (arVideo a) (cameraPose a) (arVideoPose a) t.

(** [v[i]]: indexing [undefined] throws a TypeError, an index past the
    end reads [undefined]. *)
Definition element (v : option (list jsnum)) (i : nat)
    : M App (option jsnum) :=
  match v with
  | None => throw "TypeError: cannot read properties of undefined"
  | Some l => ret (l !! i)
  end.

(** A value used in arithmetic: [undefined] becomes NaN. *)
Definition toNumber (v : option jsnum) : jsnum := default JNaN v.

Definition calculateModelViewMatrix (rvec tvec : option (list jsnum))
    : M App ModelView :=
  let* r0 := element rvec 0 in
  let* r1 := element rvec 1 in
  let* r2 := element rvec 2 in
  let* t0 := element tvec 0 in
  let* t1 := element tvec 1 in
  let* t2 := element tvec 2 in
  ret (mkModelView (jsneg (toNumber r0)) (jsneg (toNumber r1)) r2
         (jsscale (toNumber t0) (Qmake 1 100))
         (jsscale (jsneg (toNumber t1)) (Qmake 1 100))
         (jsscale (jsneg (toNumber t2)) (Qmake 1 100))).

Definition updateCameraPose (detectionResult : DetectionResult) : M App unit :=
  let* modelViewMatrix := calculateModelViewMatrix (rvec detectionResult)
                       (tvec detectionResult) in
  modify (setPoses modelViewMatrix) >>
  modify (fun a => setArVideo (setVisible true (arVideo a)) a).

Definition onMarkerFound : M App unit :=
  emit MarkerFound >>
  modify (setTracking true) >>
  let* a := get in
  match userDataVideo (arVideo a) with
  | Some v =>
      emit VideoPlay >>
      modify (setArVideo (setVideo (Some (play v)) (arVideo a)))
  | None => ret tt
  end.

Definition onMarkerLost : M App unit :=
  emit MarkerLost >>
  modify (setTracking false) >>
  let* a := get in
  match userDataVideo (arVideo a) with
  | Some v =>
      emit VideoPause >>
      modify (setArVideo (setVideo (Some (pause v)) (arVideo a)))
  | None => ret tt
  end.

Definition detectMarker (result : option DetectionResult) : M App unit :=
  let* a := get in
  match result with
  | Some r =>
      if found r then
        when (negb (isTracking a)) onMarkerFound >>
        updateCameraPose r >>
        modify (setDebugInfo "Маркер обнаружен!")
      else
        when (isTracking a) onMarkerLost >>
        modify (setDebugInfo "Маркер не найден")
  | None =>
      when (isTracking a) onMarkerLost >>
      modify (setDebugInfo "Маркер не найден")
  end.

(** One frame: what the environment supplies. *)
Record TickEnv : Type := mkTickEnv {
  ready : bool;                      (* detector set and video has enough data *)
  detected : option DetectionResult; (* what [detector.detect()] returns *)
  rendering : Completion unit        (* outcome of [renderer.render] *)
}.

(** [animate()]: no handler surrounds the frame's work. *)
Definition animate (env : TickEnv) : M App unit :=
  emit RequestFrame >>
  when (ready env) (detectMarker (detected env)) >>
  external (rendering env) >>
  emit Render.

Definition tick (env : TickEnv) (a : App) : App * list Effect :=
  match animate env a with (_, a', es) => (a', es) end.

(** The state the constructor and [init] leave: not tracking, the video
    plane hidden, its video not started. *)
Definition initial : App :=
  mkApp false (mkMesh false (Some (mkVideo true (Qmake 0 1)))) None None "".

End Legacy.

(** ** The AR.js application (src/main.js, second version) *)

Module ARApp.
Import JS Eff Dom.
Local Open Scope js_scope.

(** The marker group: visibility and the matrix last loaded into it. *)
Record Group : Type := mkGroup {
  groupVisible : bool;
  groupMatrix : list jsnum;
  matrixAutoUpdate : bool
}.

Record App : Type := mkApp {
  arController : bool;        (* [this.arController] is set *)
  videoElement : bool;        (* [this.videoElement] is set *)
  renderer : bool;            (* [this.renderer] is set *)
  markerGroup : option Group;
  videoMesh : option Mesh;
  isMarkerDetected : bool;
  frameCount : Z;
  lastFpsUpdate : Z;
  errorLogged : bool;
  markerStatus : string;
  videoStatus : string;
  fpsCounter : Z
}.

Definition setMarkerGroup (g : option Group) (a : App) : App :=
  mkApp (arController a) (videoElement a) (renderer a) g (videoMesh a)
    (isMarkerDetected a) (frameCount a) (lastFpsUpdate a) (errorLogged a)
    (markerStatus a) (videoStatus a) (fpsCounter a).
Definition setVideoMesh (m : option Mesh) (a : App) : App :=
  mkApp (arController a) (videoElement a) (renderer a) (markerGroup a) m
    (isMarkerDetected a) (frameCount a) (lastFpsUpdate a) (errorLogged a)
    (markerStatus a) (videoStatus a) (fpsCounter a).
Definition setDetected (b : bool) (a : App) : App :=
  mkApp (arController a) (videoElement a) (renderer a) (markerGroup a)
    (videoMesh a) b (frameCount a) (lastFpsUpdate a) (errorLogged a)
    (markerStatus a) (videoStatus a) (fpsCounter a).
Definition setFps (count last shown : Z) (a : App) : App :=
  mkApp (arController a) (videoElement a) (renderer a) (markerGroup a)
    (videoMesh a) (isMarkerDetected a) count last (errorLogged a)
    (markerStatus a) (videoStatus a) shown.
Definition setErrorLogged (b : bool) (a : App) : App :=
  mkApp (arController a) (videoElement a) (renderer a) (markerGroup a)
    (videoMesh a) (isMarkerDetected a) (frameCount a) (lastFpsUpdate a) b
    (markerStatus a) (videoStatus a) (fpsCounter a).
Definition setMarkerStatus (t : string) (a : App) : App :=
  mkApp (arController a) (videoElement a) (renderer a) (markerGroup a)
    (videoMesh a) (isMarkerDetected a) (frameCount a) (lastFpsUpdate a)
    (errorLogged a) t (videoStatus a) (fpsCounter a).
Definition setVideoStatus (t : string) (a : App) : App :=
  mkApp (arController a) (videoElement a) (renderer a) (markerGroup a)
    (videoMesh a) (isMarkerDetected a) (frameCount a) (lastFpsUpdate a)
    (errorLogged a) (markerStatus a) t (fpsCounter a).

(** [this.markerGroup.visible = b] *)
Definition setGroupVisible (b : bool) (a : App) : App :=
  match markerGroup a with
  | Some g =>
      setMarkerGroup (Some (mkGroup b (groupMatrix g) (matrixAutoUpdate g))) a
  | None => a
  end.

(** *** Playback control (src/assetLoader.js) *)

(** [playVideo(mesh)]: start the video if there is one and it is paused. *)
Definition playVideo (m : Mesh) : M App Mesh :=
  match userDataVideo m with
  | Some v =>
      if paused v then emit VideoPlay >> ret (setVideo (Some (play v)) m)
      else ret m
  | None => ret m
  end.

(** [pauseVideo(mesh)]: pause the video if there is one and it is playing. *)
Definition pauseVideo (m : Mesh) : M App Mesh :=
  match userDataVideo m with
  | Some v =>
      if negb (paused v) then emit VideoPause >> ret (setVideo (Some (pause v)) m)
      else ret m
  | None => ret m
  end.

(** [stopVideo(mesh)]: pause and return to the start. *)
Definition stopVideo (m : Mesh) : M App Mesh :=
  match userDataVideo m with
  | Some v => emit VideoPause >> ret (setVideo (Some (mkVideo true (Qmake 0 1))) m)
  | None => ret m
  end.

(** *** Marker handlers *)

Definition onMarkerFound : M App unit :=
  emit MarkerFound >>
  modify (setMarkerStatus "Detected") >>
  let* a := get in
  match videoMesh a with
  | Some m =>
      let* m' := playVideo (setVisible true m) in
      modify (setVideoMesh (Some m')) >>
      modify (setVideoStatus "Playing")
  | None => ret tt
  end.

Definition onMarkerLost : M App unit :=
  emit MarkerLost >>
  modify (setMarkerStatus "Not detected") >>
  let* a := get in
  match videoMesh a with
  | Some m =>
      let* m' := pauseVideo (setVisible false m) in
      modify (setVideoMesh (Some m')) >>
      modify (setVideoStatus "Paused")
  | None => ret tt
  end.

(** The two places where the tracking flag changes: the assignment and
    the handler call that follows it. *)
Definition markerFoundTransition : M App unit :=
  modify (setDetected true) >> onMarkerFound.

Definition markerLostTransition : M App unit :=
  modify (setDetected false) >> onMarkerLost.

(** *** The animation loop *)

Definition HAVE_ENOUGH_DATA : nat := 4%nat.

(** What the environment supplies during one tick. *)
Record TickEnv : Type := mkTickEnv {
  now : Z;                               (* [Date.now()] *)
  readyState : nat;                      (* [this.videoElement.readyState] *)
  drawing : Completion unit;             (* [getContext('2d')] and [drawImage] *)
  processing : Completion unit;          (* [arController.process] *)
  markerNum : Completion Z;              (* [arController.getMarkerNum()] *)
  transMat : Completion (bool * list jsnum);
    (* [getTransMatSquare(0, 100, transArray)]: the flag it returns and the
       buffer as it leaves it *)
  loading : Completion unit;             (* [markerGroup.matrix.fromArray] *)
  rendering : Completion unit            (* [renderer.render] *)
}.

(** The body of the inner [try]: ask for the transform and act on it. *)
Definition applyTransform (env : TickEnv) : M App unit :=
  let* r := external (transMat env) in
  let '(success, transArray) := r in
  let* a := get in
  if success && (16 <=? length transArray)%nat then
    external (loading env) >>
    modify (fun a =>
      match markerGroup a with
      | Some g => setMarkerGroup (Some (mkGroup true (take 16 transArray) false)) a
      | None => a
      end) >>
    when (negb (isMarkerDetected a)) markerFoundTransition
  else
    when (isMarkerDetected a)
      (modify (setGroupVisible false) >> markerLostTransition).

(** The inner [catch (e)]. *)
Definition transformFailed (e : Exn) : M App unit :=
  let* a := get in
  when (isMarkerDetected a)
    (modify (setGroupVisible false) >> markerLostTransition).

(** The branch taken when no marker is reported. *)
Definition noMarkers : M App unit :=
  let* a := get in
  match markerGroup a with
  | Some g =>
      when (groupVisible g)
        (modify (setGroupVisible false) >>
         when (isMarkerDetected a) markerLostTransition)
  | None => ret tt
  end.

(** The body of the outer [try]. *)
Definition processFrame (env : TickEnv) : M App unit :=
  let* a := get in
  (if arController a && videoElement a
      && (readyState env =? HAVE_ENOUGH_DATA)%nat
   then
     external (drawing env) >>
     external (processing env) >>
     let* markerCount := external (markerNum env) in
     if (0 <? markerCount) && bool_decide (is_Some (markerGroup a))
     then tryCatch (applyTransform env) transformFailed
     else noMarkers
   else ret tt) >>
  when (renderer a) (external (rendering env) >> emit Render).

(** The outer [catch (error)]: log the first error only. *)
Definition logOnce (error : Exn) : M App unit :=
  let* a := get in
  when (negb (errorLogged a))
    (emit (ConsoleError error) >> modify (setErrorLogged true)).

Definition updateFPS (env : TickEnv) : M App unit :=
  modify (fun a => setFps (frameCount a + 1) (lastFpsUpdate a) (fpsCounter a) a) >>
  let* a := get in
  let elapsed := now env - lastFpsUpdate a in
  when (1000 <=? elapsed)
    (* fps = Math.round(frameCount * 1000 / elapsed) *)
    (modify (setFps 0 (now env)
               ((2 * (frameCount a * 1000) + elapsed) / (2 * elapsed)))).

Definition animate (env : TickEnv) : M App unit :=
  emit RequestFrame >>
  tryCatch (processFrame env) logOnce >>
  updateFPS env.

Definition tick (env : TickEnv) (a : App) : App * list Effect :=
  match animate env a with (_, a', es) => (a', es) end.

(** *** Initialisation *)

Definition identity16 : list jsnum :=
  (fun n : Z => JNum (Qmake n 1))
    <$> [1; 0; 0; 0; 0; 1; 0; 0; 0; 0; 1; 0; 0; 0; 0; 1].

(** The fields as the constructor sets them; [t] is [Date.now()]. *)
Definition constructed (t : Z) : App :=
  mkApp false false false None None false 0 t false "" "" 0.

(** [initThreeJS]: renderer and marker group (a fresh [THREE.Group] is
    visible). *)
Definition initThreeJS (a : App) : App :=
  mkApp (arController a) (videoElement a) true
    (Some (mkGroup true identity16 true)) (videoMesh a)
    (isMarkerDetected a) (frameCount a) (lastFpsUpdate a) (errorLogged a)
    (markerStatus a) (videoStatus a) (fpsCounter a).

(** [initARJS]: the controller, and the camera video when the stream could
    be acquired. *)
Definition initARJS (camera : bool) (a : App) : App :=
  mkApp true camera (renderer a) (markerGroup a) (videoMesh a)
    (isMarkerDetected a) (frameCount a) (lastFpsUpdate a) (errorLogged a)
    (markerStatus a) (videoStatus a) (fpsCounter a).

(** [loadVideoAssets], once the asset is there: the mesh is created around
    the asset's video and hidden. *)
Definition loadVideoAssets (video : option Video) (a : App) : App :=
  setVideoStatus "Ready" (setVideoMesh (Some (mkMesh false video)) a).

(** The state in which [init] starts the animation loop. *)
Definition initial (t : Z) (camera : bool) (video : option Video) : App :=
  loadVideoAssets video (initARJS camera (initThreeJS (constructed t))).

End ARApp.

(** ** The asset loader (src/assetLoader.js) *)

Module AssetLoader.
Import Eff.

(** Promises created by [_loadVideoTextureInternal], numbered in order of
    creation. *)
Definition PromiseId : Type := nat.

(** The object [{ videoElement, texture }] a load resolves with; the
    fields are the identities of the video element and of the texture. *)
Record Asset : Type := mkAsset {
  videoElement : nat;
  texture : nat
}.

Inductive PromiseState : Type :=
| Pending
| Fulfilled (a : Asset)
| Rejected (e : Exn).

Record Loader : Type := mkLoader {
  loadedAssets : gmap string Asset;
  loadingPromises : gmap string PromiseId;
  promises : gmap PromiseId PromiseState;
  (* (url, name) of every call of [_loadVideoTextureInternal]: each one
     creates a video element and starts loading it *)
  decodes : list (string * string);
  (* calls of [loadVideoTexture] suspended at [await loadPromise] *)
  suspended : list (string * PromiseId)
}.

(** [new AssetLoader()] *)
Definition empty : Loader := mkLoader ∅ ∅ ∅ [] [].

(** How a call of [loadVideoTexture] leaves its synchronous part. *)
Inductive CallOutcome : Type :=
| Returned (a : Asset)       (* [return this.loadedAssets.get(name)] *)
| Adopted (p : PromiseId)    (* [return this.loadingPromises.get(name)]:
                                the call's result is whatever [p] settles to *)
| Awaiting (p : PromiseId).  (* suspended at [await loadPromise] *)

(** [loadVideoTexture(url, name, videoConfig)] up to its first [await]. *)
Definition loadVideoTexture (url name : string) (l : Loader)
    : Loader * CallOutcome :=
  match loadedAssets l !! name with
  | Some a => (l, Returned a)
  | None =>
      match loadingPromises l !! name with
      | Some p => (l, Adopted p)
      | None =>
          let loadPromise := length (decodes l) in
          (mkLoader (loadedAssets l)
             (<[name := loadPromise]> (loadingPromises l))
             (<[loadPromise := Pending]> (promises l))
             (decodes l ++ [(url, name)])
             (suspended l ++ [(name, loadPromise)]),
           Awaiting loadPromise)
      end
  end.

(** The video fires [canplay] or [error] (or the timeout rejects): the
    promise settles, once. *)
Definition settle (p : PromiseId) (r : PromiseState) (l : Loader) : Loader :=
  match promises l !! p, r with
  | Some Pending, Fulfilled _ | Some Pending, Rejected _ =>
      mkLoader (loadedAssets l) (loadingPromises l)
        (<[p := r]> (promises l)) (decodes l) (suspended l)
  | _, _ => l
  end.

Definition isFrame (name : string) (p : PromiseId)
    (f : string * PromiseId) : bool :=
  bool_decide (f = (name, p)).

(** The rest of [loadVideoTexture] for the call that started the load,
    run once [loadPromise] has settled: store the result, and in any case
    ([finally]) forget the pending promise. *)
Definition resume (name : string) (p : PromiseId) (l : Loader)
    : option (Loader * Completion Asset) :=
  if existsb (isFrame name p) (suspended l) then
    let rest := List.filter (fun f => negb (isFrame name p f)) (suspended l) in
    match promises l !! p with
    | Some (Fulfilled result) =>
        Some (mkLoader (<[name := result]> (loadedAssets l))
                (delete name (loadingPromises l))
                (promises l) (decodes l) rest,
              Normal result)
    | Some (Rejected e) =>
        Some (mkLoader (loadedAssets l)
                (delete name (loadingPromises l))
                (promises l) (decodes l) rest,
              Thrown e)
    | _ => None
    end
  else None.

(** [dispose(name)] *)
Definition dispose (name : string) (l : Loader) : Loader :=
  match loadedAssets l !! name with
  | Some _ =>
      mkLoader (delete name (loadedAssets l)) (loadingPromises l)
        (promises l) (decodes l) (suspended l)
  | None => l
  end.

(** What can happen to a loader, one event after the other. *)
Inductive Event : Type :=
| Call (url name : string)
| Settle (p : PromiseId) (r : PromiseState)
| Resume (name : string) (p : PromiseId)
| Dispose (name : string).

Definition step (l : Loader) (ev : Event) : Loader :=
  match ev with
  | Call url name => fst (loadVideoTexture url name l)
  | Settle p r => settle p r l
  | Resume name p =>
      match resume name p l with
      | Some (l', _) => l'
      | None => l
      end
  | Dispose name => dispose name l
  end.

Definition exec (l : Loader) (evs : list Event) : Loader :=
  fold_left step evs l.

(** The value a call's promise ends up with, if it has settled. *)
Definition outcomeValue (l : Loader) (o : CallOutcome)
    : option (Completion Asset) :=
  match o with
  | Returned a => Some (Normal a)
  | Adopted p | Awaiting p =>
      match promises l !! p with
      | Some (Fulfilled a) => Some (Normal a)
      | Some (Rejected e) => Some (Thrown e)
      | _ => None
      end
  end.

(** Loads started for [name]. *)
Definition decodesOf (name : string) (l : Loader) : list (string * string) :=
  List.filter (fun d => bool_decide (snd d = name)) (decodes l).

End AssetLoader.

(** ** Specification-side notions for the applications and the loader *)

Module AppSpec.
Import JS Eff Dom.

(** The video mesh exists and is visible exactly while the app tracks. *)
Definition meshInvariant (a : ARApp.App) : Prop :=
  exists m, ARApp.videoMesh a = Some m
            /\ visible m = ARApp.isMarkerDetected a.

(** The mesh is hidden and its video paused at playback position [t]. *)
Definition hiddenPausedAt (a : ARApp.App) (t : Q) : Prop :=
  exists m v, ARApp.videoMesh a = Some m /\ visible m = false
              /\ userDataVideo m = Some v
              /\ paused v = true /\ currentTime v = t.

(** The mesh is shown and its video playing at playback position [t]. *)
Definition shownPlayingAt (a : ARApp.App) (t : Q) : Prop :=
  exists m v, ARApp.videoMesh a = Some m /\ visible m = true
              /\ userDataVideo m = Some v
              /\ paused v = false /\ currentTime v = t.

(** The playback position of the mesh's video is [t]. *)
Definition playbackAt (a : ARApp.App) (t : Q) : Prop :=
  exists m v, ARApp.videoMesh a = Some m /\ userDataVideo m = Some v
              /\ currentTime v = t.







(** Sample frames for the AR.js application. *)
Definition zero : jsnum := JNum (Qmake 0 1).

Definition frameWith (n : Z) (t : Completion (bool * list jsnum))
    : ARApp.TickEnv :=
  ARApp.mkTickEnv 0 ARApp.HAVE_ENOUGH_DATA (Normal tt) (Normal tt)
    (Normal n) t (Normal tt) (Normal tt).

Definition markerSeen : ARApp.TickEnv :=
  frameWith 1 (Normal (true, replicate 16 zero)).
Definition nothingSeen : ARApp.TickEnv :=
  frameWith 0 (Normal (false, replicate 16 zero)).
Definition shortBuffer : ARApp.TickEnv :=
  frameWith 1 (Normal (true, replicate 10 zero)).

Definition sampleVideo : Video := mkVideo true (Qmake 7 2).
Definition startState : ARApp.App := ARApp.initial 0 true (Some sampleVideo).





Import AssetLoader.

(** Consistency of a loader's bookkeeping. *)
Definition consistent (l : Loader) : Prop :=
  (forall n p, (n, p) ∈ suspended l <-> loadingPromises l !! n = Some p)
  /\ (forall n p, loadingPromises l !! n = Some p -> loadedAssets l !! n = None)
  /\ (forall n p, loadingPromises l !! n = Some p -> is_Some (promises l !! p))
  /\ (forall p, is_Some (promises l !! p) -> (p < length (decodes l))%nat).

(** The call that started the load of [name] has not resumed yet. *)
Definition firstStillWaiting (name : string) (evs : list Event) : Prop :=
  Forall (fun ev => match ev with Resume n _ => n <> name | _ => True end) evs.

(** The asset [name] is not disposed. *)
Definition keepsAsset (name : string) (evs : list Event) : Prop :=
  Forall (fun ev => match ev with Dispose n => n <> name | _ => True end) evs.

End AppSpec.

(** ** Specification-side notions for the detectors *)

Module DetectorSpec.
Import JS Detector.

(** Number of entries of a [visited] array that are still 0. *)
Fixpoint zeros (l : list Z) : nat :=
  match l with
  | [] => 0%nat
  | v :: l' => ((if (v =? 0)%Z then 1 else 0) + zeros l')%nat
  end.

(** Pixel index [p] lies in the frame and passes the colour test. *)
Definition markerColored (img : ImageData) (p : Z) : Prop :=
  0 <= p < Z.of_nat (width img) * Z.of_nat (height img)
  /\ redAt (data img) (Z.to_nat p) = true.

(** Horizontal or vertical adjacency of two pixel indices of a frame
    [w] pixels wide: same row and neighbouring columns, or same column
    and neighbouring rows. *)
Definition adjacent4 (w : Z) (p q : Z) : Prop :=
  (p / w = q / w /\ Z.abs (p mod w - q mod w) = 1)
  \/ (p mod w = q mod w /\ Z.abs (p / w - q / w) = 1).

(** [q] is joined to [p] by a chain of adjacent marker-coloured pixels. *)
Inductive connected4 (img : ImageData) (p : Z) : Z -> Prop :=
| connected4_refl : markerColored img p -> connected4 img p p
| connected4_step q r :
    connected4 img p q ->
    adjacent4 (Z.of_nat (width img)) q r ->
    markerColored img r ->
    connected4 img p r.

(** A queued or collected index: inside the frame and set in the red map. *)
Definition goodPixel (w h : Z) (redMap : list Z) (p : Z) : Prop :=
  0 <= p < w * h /\ truthy (aget redMap p) = true.

(** What the loop of [floodFill] maintains, [visited0] being the array on
    entry: queued indices are good; collected pixels are good, marked, not
    marked on entry and listed once; marks are only added. *)
Definition fillInvariant (w h : Z) (redMap visited0 : list Z)
    (st : FillState) : Prop :=
  length (fs_visited st) = length visited0
  /\ Forall (goodPixel w h redMap) (fs_queue st)
  /\ Forall (fun p => goodPixel w h redMap p
                      /\ truthy (aget (fs_visited st) p) = true
                      /\ truthy (aget visited0 p) = false) (fs_pixels st)
  /\ NoDup (fs_pixels st)
  /\ (forall j, truthy (aget visited0 j) = true ->
                truthy (aget (fs_visited st) j) = true).

(** Clusters that reach the output list have more than 20 pixels. *)
Definition bigEnough (c : Cluster) : Prop := (20 < length (pixels c))%nat.

(** [v] is a finite number within [eps] of [c]. *)
Definition near (v : jsnum) (c eps : Q) : Prop :=
  match v with
  | JNum q => Qle (Qabs (Qminus q c)) eps
  | _ => False
  end.

(** Descending order of pixel counts. *)
Definition countsDescending (ns : list nat) : Prop :=
  StronglySorted (fun a b => (b <= a)%nat) ns.

Definition clusterSize (c : Cluster) : nat := length (pixels c).

(** The order [sort] establishes on clusters. *)
Definition largerFirst (a b : Cluster) : Prop :=
  (length (pixels b) <= length (pixels a))%nat.

(** The frame of three columns and eleven rows whose left and right
    columns are red and whose middle column is black. *)
Definition twoColumnsFrame : ImageData :=
  paint 3 11 (fun px _ => negb (px =? 1)%nat).

End DetectorSpec.

Import DetectorSpec.

(** ** Specification-side notions for the flood fill's components *)

Module ComponentSpec.
Import JS Detector DetectorSpec.

(** [p] is joined to [start] by a chain of red-map entries each of which
    is in the neighbour list ([idx - 1], [idx + 1], [idx - width],
    [idx + width]) of the one before. *)
Inductive linked (w h : Z) (redMap : list Z) (start : Z) : Z -> Prop :=
| linked_start :
    goodPixel w h redMap start -> linked w h redMap start start
| linked_step p n :
    linked w h redMap start p ->
    n ∈ neighbors p w ->
    goodPixel w h redMap n ->
    linked w h redMap start n.

(** The same chain, stated on the frame: every link is a marker-coloured
    pixel whose index is a neighbour index of the previous one. *)
Inductive indexLinked (img : ImageData) (start : Z) : Z -> Prop :=
| indexLinked_start :
    markerColored img start -> indexLinked img start start
| indexLinked_step p n :
    indexLinked img start p ->
    n ∈ neighbors p (Z.of_nat (width img)) ->
    markerColored img n ->
    indexLinked img start n.

(** What the loop of [floodFill] maintains beyond [fillInvariant]: queue
    and pixels are linked to the start; every good neighbour of a
    collected pixel is marked or queued; every mark is old or collected;
    the start is collected first. *)
Definition fillProgress (w h : Z) (redMap visited0 : list Z) (start : Z)
    (st : FillState) : Prop :=
  Forall (linked w h redMap start) (fs_queue st)
  /\ Forall (linked w h redMap start) (fs_pixels st)
  /\ (forall p n, p ∈ fs_pixels st -> n ∈ neighbors p w ->
                  goodPixel w h redMap n ->
                  truthy (aget (fs_visited st) n) = true \/ n ∈ fs_queue st)
  /\ (forall j, truthy (aget (fs_visited st) j) = true ->
                truthy (aget visited0 j) = true \/ j ∈ fs_pixels st)
  /\ ((fs_pixels st = [] /\ fs_queue st = [start] /\ fs_visited st = visited0)
      \/ exists rest, fs_pixels st = start :: rest).

(** Marks are closed under good neighbours. *)
Definition closedMarks (w h : Z) (redMap visited : list Z) : Prop :=
  forall p n, truthy (aget visited p) = true -> n ∈ neighbors p w ->
              goodPixel w h redMap n -> truthy (aget visited n) = true.

(** A cluster starts with a pixel to which all its pixels are linked, and
    contains every good neighbour of its pixels. *)
Definition componentOf (w h : Z) (redMap : list Z) (c : Cluster) : Prop :=
  exists s rest,
    pixels c = s :: rest
    /\ (forall p, p ∈ pixels c -> linked w h redMap s p)
    /\ (forall p n, p ∈ pixels c -> n ∈ neighbors p w ->
                    goodPixel w h redMap n -> n ∈ pixels c).

(** Number of marker-coloured pixels of a frame. *)
Definition redPixels (img : ImageData) : nat :=
  length (List.filter (redAt (data img)) (seq 0 (width img * height img))).

End ComponentSpec.

(** ** The reported position *)

Module CentroidSpec.
Import JS Detector.

Definition sumZ (l : list Z) : Z := foldr Z.add 0 l.

(** The centre of a cluster is the mean column and the mean row of its
    pixels in a frame [w] pixels wide. *)
Definition centroidOf (w : Z) (c : Cluster) : Prop :=
  centerX c = jsdiv (sumZ ((fun p => p mod w) <$> pixels c))
                (Z.of_nat (length (pixels c)))
  /\ centerY c = jsdiv (sumZ ((fun p => p / w) <$> pixels c))
                   (Z.of_nat (length (pixels c))).

(** [v] is a finite number between the integers [lo] and [hi]. *)
Definition within (v : jsnum) (lo hi : Z) : Prop :=
  match v with
  | JNum q => (inject_Z lo <= q)%Q /\ (q <= inject_Z hi)%Q
  | _ => False
  end.

End CentroidSpec.

(** ** Specification-side notions for playback, logging and stalls *)

Module TickSpec.
Import JS Eff Dom.

(** The playback calls among the effects of a tick. *)
Definition isPlaybackEvent (e : Effect) : bool :=
  match e with VideoPlay | VideoPause => true | _ => false end.

Definition playbackEvents (es : list Effect) : list Effect :=
  List.filter isPlaybackEvent es.

(** The playback call a change of the tracking flag asks for. *)
Definition playbackFor (before after : bool) : list Effect :=
  match before, after with
  | false, true => [VideoPlay]
  | true, false => [VideoPause]
  | _, _ => []
  end.

(** The mesh carries a video that plays exactly while the app tracks. *)
Definition playsWhileTracking (a : ARApp.App) : Prop :=
  exists m v, ARApp.videoMesh a = Some m /\ userDataVideo m = Some v
              /\ paused v = negb (ARApp.isMarkerDetected a).

Definition legacyPlaysWhileTracking (a : Legacy.App) : Prop :=
  exists v, userDataVideo (Legacy.arVideo a) = Some v
            /\ paused v = negb (Legacy.isTracking a).

(** The errors a tick writes to the console. *)
Definition isConsoleError (e : Effect) : bool :=
  match e with ConsoleError _ => true | _ => false end.

Definition consoleErrors (es : list Effect) : list Effect :=
  List.filter isConsoleError es.

(** All effects of a run, in order. *)
Definition runEffects {St : Type} (log : list (St * list Effect * St))
    : list Effect :=
  mjoin ((fun '(_, es, _) => es) <$> log).

(** The frame cannot be processed: controller or camera video missing, or
    the video without enough data. *)
Definition stalled (env : ARApp.TickEnv) (a : ARApp.App) : bool :=
  negb (ARApp.arController a && ARApp.videoElement a
        && (ARApp.readyState env =? ARApp.HAVE_ENOUGH_DATA)%nat).



End TickSpec.

(** ** Playback helpers (src/assetLoader.js, test/simple-test.js) *)

Module Playback.
Import JS Eff Dom.
Local Open Scope js_scope.

(** [a <= b] on numbers that are not NaN. *)
Definition jsle (a b : jsnum) : bool :=
  match a, b with
  | JNum p, JNum q => Qle_bool p q
  | JInf true, _ => true
  | _, JInf false => true
  | _, _ => false
  end.

(** [Math.min(a, b)] and [Math.max(a, b)]: NaN as soon as an argument is. *)
Definition jsmin (a b : jsnum) : jsnum :=
  match a, b with
  | JNaN, _ | _, JNaN => JNaN
  | _, _ => if jsle a b then a else b
  end.

Definition jsmax (a b : jsnum) : jsnum :=
  match a, b with
  | JNaN, _ | _, JNaN => JNaN
  | _, _ => if jsle a b then b else a
  end.

(** [setVolume(mesh, volume)]: the value assigned to [video.volume];
    [None] when the mesh carries no video and nothing is assigned. *)
Definition setVolume (m : Mesh) (volume : jsnum) : option jsnum :=
  match userDataVideo m with
  | Some _ => Some (jsmax (JNum (Qmake 0 1)) (jsmin (JNum (Qmake 1 1)) volume))
  | None => None
  end.

(** A sequence of [playVideo] / [pauseVideo] calls on one mesh. *)
Inductive Control : Type := CPlay | CPause.

Definition control (c : Control) (m : Mesh) : M ARApp.App Mesh :=
  match c with
  | CPlay => ARApp.playVideo m
  | CPause => ARApp.pauseVideo m
  end.

Fixpoint controls (cs : list Control) (m : Mesh) : M ARApp.App Mesh :=
  match cs with
  | [] => ret m
  | c :: cs' => let* m' := control c m in controls cs' m'
  end.

(** The calls a sequence of controls makes on a video that is paused or
    not: the first is the one that changes the state, and no call repeats
    the one before it. *)
Inductive alternating : bool -> list Effect -> Prop :=
| alternating_nil isPaused : alternating isPaused []
| alternating_play es :
    alternating false es -> alternating true (VideoPlay :: es)
| alternating_pause es :
    alternating true es -> alternating false (VideoPause :: es).

(** [toggleVideo()] of the test page, over the videos of the document:
    the videos as it leaves them and the calls it makes. *)
Definition toggleOne (v : Video) : Video * Effect :=
  if paused v then (play v, VideoPlay) else (pause v, VideoPause).

Definition toggleVideo (videos : list Video) : list Video * list Effect :=
  (fst <$> (toggleOne <$> videos), snd <$> (toggleOne <$> videos)).

End Playback.

(** ** Start-up of the AR.js application (src/main.js) *)

Module Startup.
Import JS Eff Dom.
Local Open Scope js_scope.

(** The globals [waitForARJS] looks at. [THREEx = Some b]: [window.THREEx]
    is defined, and [b] tells whether its [THREE] property is set. *)
Record Globals : Type := mkGlobals {
  THREE : bool;
  THREEx : option bool;
  ARController : bool;
  ARCameraParam : bool
}.

(** [window.THREEx && window.THREEx.THREE] *)
Definition threexTHREE (g : Globals) : bool := default false (THREEx g).

Definition librariesLoaded (g : Globals) : bool :=
  let threexLoaded := bool_decide (is_Some (THREEx g)) in
  let arControllerLoaded := ARController g in
  let arCameraParamLoaded := ARCameraParam g in
  let threeLoaded := THREE g || threexTHREE g in
  threexLoaded && arControllerLoaded && arCameraParamLoaded && threeLoaded.

(** [if (!window.THREE && window.THREEx && window.THREEx.THREE)
       window.THREE = window.THREEx.THREE] *)
Definition adoptTHREE (g : Globals) : Globals :=
  if negb (THREE g) && threexTHREE g
  then mkGlobals true (THREEx g) (ARController g) (ARCameraParam g)
  else g.

Definition maxAttempts : nat := 100.

Inductive WaitResult : Type :=
| InitCalled (attempts : nat) (g : Globals)
    (* [init()] is called after [attempts] waits of 50 ms *)
| NotLoaded.
    (* throws [Error('AR.js libraries not loaded')] *)

(** The [while (attempts < maxAttempts)] loop; [globals k] is what the
    window holds when the loop looks for the [k]-th time (from 0), and
    [remaining] is [maxAttempts - attempts]. *)
Fixpoint poll (globals : nat -> Globals) (attempts remaining : nat)
    : WaitResult :=
  match remaining with
  | O => NotLoaded
  | S remaining' =>
      if librariesLoaded (globals attempts)
      then InitCalled attempts (adoptTHREE (globals attempts))
      else poll globals (S attempts) remaining'
  end.

Definition waitForARJS (globals : nat -> Globals) : WaitResult :=
  poll globals 0 maxAttempts.

(** The application together with the status line of the page. *)
Record Page : Type := mkPage {
  app : ARApp.App;
  statusText : string;
  statusClass : string
}.

Definition onApp (f : ARApp.App -> ARApp.App) (p : Page) : Page :=
  mkPage (f (app p)) (statusText p) (statusClass p).

(** Run a computation of the application inside the page. *)
Definition liftApp {A} (m : M ARApp.App A) : M Page A :=
  fun p => match m (app p) with (r, a', es) => (r, onApp (fun _ => a') p, es) end.

(** [updateStatus(message, status)] *)
Definition updateStatus (message status : string) : M Page unit :=
  modify (fun p =>
    mkPage (app p) message
      (if String.eqb status "ok" then "marker-found"
       else if String.eqb status "error" then "marker-lost"
       else "loading")).

(** What the environment decides during [init]. *)
Record InitEnv : Type := mkInitEnv {
  rendererCreated : Completion unit;
    (* scene, camera and [new THREE.WebGLRenderer] *)
  sceneFilled : Completion unit;
    (* sizing and attaching the canvas, the lights *)
  cameraAccess : Completion unit;
    (* [checkCameraAccess]: getUserMedia exists and grants a stream *)
  controller : Completion unit;
    (* AR canvas, camera parameters and [new ARController] *)
  stream : Completion unit;
    (* getUserMedia and the camera video element in [initARJS] *)
  videoAsset : Completion (option Video);
    (* [loadVideoTexture] and [createVideoMesh]: the video the mesh
       carries, if any *)
  firstFrame : ARApp.TickEnv
}.

Definition setRenderer (a : ARApp.App) : ARApp.App :=
  ARApp.mkApp (ARApp.arController a) (ARApp.videoElement a) true
    (ARApp.markerGroup a) (ARApp.videoMesh a) (ARApp.isMarkerDetected a)
    (ARApp.frameCount a) (ARApp.lastFpsUpdate a) (ARApp.errorLogged a)
    (ARApp.markerStatus a) (ARApp.videoStatus a) (ARApp.fpsCounter a).

Definition setController (a : ARApp.App) : ARApp.App :=
  ARApp.mkApp true (ARApp.videoElement a) (ARApp.renderer a)
    (ARApp.markerGroup a) (ARApp.videoMesh a) (ARApp.isMarkerDetected a)
    (ARApp.frameCount a) (ARApp.lastFpsUpdate a) (ARApp.errorLogged a)
    (ARApp.markerStatus a) (ARApp.videoStatus a) (ARApp.fpsCounter a).

Definition setVideoElement (a : ARApp.App) : ARApp.App :=
  ARApp.mkApp (ARApp.arController a) true (ARApp.renderer a)
    (ARApp.markerGroup a) (ARApp.videoMesh a) (ARApp.isMarkerDetected a)
    (ARApp.frameCount a) (ARApp.lastFpsUpdate a) (ARApp.errorLogged a)
    (ARApp.markerStatus a) (ARApp.videoStatus a) (ARApp.fpsCounter a).

Definition initThreeJS (env : InitEnv) : M Page unit :=
  external (rendererCreated env) >>
  modify (onApp setRenderer) >>
  external (sceneFilled env) >>
  modify (onApp (ARApp.setMarkerGroup
                   (Some (ARApp.mkGroup true ARApp.identity16 true)))).

(** [checkCameraAccess]: its [catch] logs and rethrows. *)
Definition checkCameraAccess (env : InitEnv) : M Page unit :=
  tryCatch (external (cameraAccess env)) throw.

(** [initARJS]: a failure to get the stream is caught inside and only
    warned about; any other failure is logged and rethrown. *)
Definition initARJS (env : InitEnv) : M Page unit :=
  tryCatch
    (external (controller env) >>
     modify (onApp setController) >>
     tryCatch
       (external (stream env) >> modify (onApp setVideoElement))
       (fun _ => ret tt))
    throw.

Definition loadVideoAssets (env : InitEnv) : M Page unit :=
  tryCatch
    (let* video := external (videoAsset env) in
     modify (onApp (ARApp.setVideoMesh (Some (mkMesh false video)))) >>
     modify (onApp (ARApp.setVideoStatus "Ready")))
    (fun error =>
       modify (onApp (ARApp.setVideoStatus ("Load failed: " ++ error))) >>
       throw error).

Definition init (env : InitEnv) : M Page unit :=
  tryCatch
    (updateStatus "Initializing AR.js..." "loading" >>
     initThreeJS env >>
     checkCameraAccess env >>
     updateStatus "Setting up marker detection..." "loading" >>
     initARJS env >>
     updateStatus "Loading video assets..." "loading" >>
     loadVideoAssets env >>
     updateStatus "Ready" "ok" >>
     liftApp (ARApp.animate (firstFrame env)))
    (fun error => updateStatus ("Error: " ++ error) "error").

(** The page as the constructor leaves it. *)
Definition constructed (t : Z) : Page := mkPage (ARApp.constructed t) "" "".

(** Every step of [init] whose failure is not caught on the way
    succeeds. *)
Definition stepsSucceed (env : InitEnv) : bool :=
  match rendererCreated env, sceneFilled env, cameraAccess env,
        controller env, videoAsset env with
  | Normal _, Normal _, Normal _, Normal _, Normal _ => true
  | _, _, _, _, _ => false
  end.

Definition streamAcquired (env : InitEnv) : bool :=
  match stream env with Normal _ => true | Thrown _ => false end.

End Startup.

(** ** The loader as a whole *)

Module LoaderSpec.
Import AssetLoader.

(** [disposeAll()]: [dispose] for every key of the cache. The order of the
    keys does not show in the loader's bookkeeping. *)
Definition disposeAll (l : Loader) : Loader :=
  foldr dispose l (fst <$> map_to_list (loadedAssets l)).

(** No name is both cached and being loaded. *)
Definition cachedOrLoading (l : Loader) : Prop :=
  forall name, is_Some (loadedAssets l !! name) ->
               loadingPromises l !! name = None.

End LoaderSpec.

(** ** Proof automation *)

Import Eff Dom AppSpec.

(** Projections of a flood-fill state. *)
Ltac fs_simpl :=
  cbn [fs_queue fs_visited fs_pixels fs_sumX fs_sumY] in *.

(** Case analysis on whatever the computation under scrutiny branches on. *)
Ltac split_match :=
  match goal with
  | |- context [match ?x with _ => _ end] =>
      lazymatch x with
      | context [match _ with _ => _ end] => fail
      | _ => destruct x eqn:?
      end
  end.

Ltac tick_cbn :=
  cbn -[Z.mul Z.div Z.add Z.sub Z.leb Z.ltb Nat.leb Nat.eqb take length] in *.

Ltac unfold_monad :=
  unfold bind, tryCatch, when, external, get, modify, emit, ret, throw in *.

Ltac unfold_arapp :=
  unfold ARApp.tick, ARApp.animate, ARApp.processFrame, ARApp.updateFPS,
    ARApp.logOnce, ARApp.applyTransform, ARApp.transformFailed,
    ARApp.noMarkers, ARApp.markerFoundTransition, ARApp.markerLostTransition,
    ARApp.onMarkerFound, ARApp.onMarkerLost,
    ARApp.playVideo, ARApp.pauseVideo, ARApp.setGroupVisible in *.

Ltac unfold_legacy :=
  unfold Legacy.tick, Legacy.animate, Legacy.detectMarker,
    Legacy.updateCameraPose, Legacy.calculateModelViewMatrix,
    Legacy.element, Legacy.toNumber, Legacy.onMarkerFound, Legacy.onMarkerLost in *.

(** Membership of an effect in an explicit list of effects. *)
Ltac absurd_event H :=
  apply list_elem_of_In in H; cbn in H; intuition discriminate.


(** Run a tick symbolically along every path it can take. *)
Ltac tick_cases :=
  unfold_monad; tick_cbn; repeat (split_match; tick_cbn).

(** * Properties of the detectors *)

Section DetectorFacts.

(** Induction over a byte buffer four bytes at a time. *)
Lemma list_ind4 (P : list Z -> Prop) :
  P [] -> (forall r, P [r]) -> (forall r g, P [r; g]) ->
  (forall r g b, P [r; g; b]) ->
  (forall r g b a l, P l -> P (r :: g :: b :: a :: l)) ->
  forall l, P l.
Proof.
  intros H0 H1 H2 H3 H4 l.
  assert (Hn : forall n (l : list Z), (length l <= n)%nat -> P l).
  { induction n as [|n IH]; intros k Hk.
    - destruct k; [exact H0 | simpl in Hk; lia].
    - destruct k as [|r [|g [|b [|a k]]]]; auto.
      apply H4, IH. simpl in Hk. lia. }
  apply (Hn (length l)). lia.
Qed.

Lemma redAt_group r g b a l j :
  redAt (r :: g :: b :: a :: l) (S j) = redAt l j.
Proof.
  unfold redAt.
  replace (4 * S j)%nat with (S (S (S (S (4 * j))))) by lia.
  replace (S (S (S (S (4 * j)))) + 1)%nat with (S (S (S (S (4 * j + 1))))) by lia.
  replace (S (S (S (S (4 * j)))) + 2)%nat with (S (S (S (S (4 * j + 2))))) by lia.
  reflexivity.
Qed.

Lemma redAt_head r rest :
  redAt (r :: rest) 0 = isRed (Some r) (rest !! 0%nat) (rest !! 1%nat).
Proof. reflexivity. Qed.



(** Outside the buffer no pixel passes the test. *)
Lemma redAt_outside (d : list Z) k :
  (length d <= 4 * k)%nat -> redAt d k = false.
Proof.
  intros H. unfold redAt.
  rewrite (lookup_ge_None_2 d (4 * k)) by lia. reflexivity.
Qed.


Lemma aget_replicate_zero n i : truthy (aget (replicate n 0) i) = false.
Proof.
  unfold aget. destruct (i <? 0); [reflexivity|].
  destruct (replicate n 0 !! Z.to_nat i) as [v|] eqn:E; [|reflexivity].
  apply lookup_replicate in E as [-> _]. reflexivity.
Qed.


(** *** Termination of the flood fill *)


Lemma length_aset a i v : length (aset a i v) = length a.
Proof. unfold aset. destruct (i <? 0); [reflexivity | apply length_insert]. Qed.

Lemma aget_falsy_inrange a i :
  0 <= i < Z.of_nat (length a) ->
  truthy (aget a i) = false ->
  a !! Z.to_nat i = Some 0.
Proof.
  intros Hi Ht. unfold aget in Ht.
  destruct (Z.ltb_spec i 0) as [?|_]; [lia|].
  assert (Hs : is_Some (a !! Z.to_nat i))
    by (apply lookup_lt_is_Some_2; lia).
  destruct Hs as [v Hv].
  rewrite Hv in Ht. unfold truthy in Ht.
  destruct (Z.eqb_spec v 0) as [E|E]; [congruence | discriminate].
Qed.

Lemma zeros_le_length l : (zeros l <= length l)%nat.
Proof.
  induction l as [|v l IH]; simpl; [lia|].
  destruct (v =? 0); lia.
Qed.

Lemma zeros_mark (l : list Z) i :
  l !! i = Some 0 -> S (zeros (<[i := 1]> l)) = zeros l.
Proof.
  revert i. induction l as [|v l IH]; intros [|i] H; simpl in *;
    try discriminate.
  - injection H as ->. reflexivity.
  - rewrite <- (IH i H). destruct (v =? 0); lia.
Qed.

Lemma zeros_aset_mark a i :
  0 <= i < Z.of_nat (length a) ->
  truthy (aget a i) = false ->
  S (zeros (aset a i 1)) = zeros a.
Proof.
  intros Hi Ht. unfold aset.
  destruct (Z.ltb_spec i 0) as [?|_]; [lia|].
  apply zeros_mark, aget_falsy_inrange; assumption.
Qed.

Lemma pushNeighbors_length w h redMap visited ns queue :
  (length (pushNeighbors w h redMap visited ns queue)
   <= length queue + length ns)%nat.
Proof.
  unfold pushNeighbors. revert queue.
  induction ns as [|n ns IH]; intros queue; simpl; [lia|].
  etransitivity; [apply IH|].
  destruct (_ && _); rewrite ?length_app; simpl; lia.
Qed.

Lemma pushNeighbors_range w h redMap visited ns queue :
  Forall (fun i => 0 <= i < w * h) queue ->
  Forall (fun i => 0 <= i < w * h)
    (pushNeighbors w h redMap visited ns queue).
Proof.
  unfold pushNeighbors. revert queue.
  induction ns as [|n ns IH]; intros queue Hq; simpl; [exact Hq|].
  apply IH.
  destruct (Z.leb_spec 0 n), (Z.ltb_spec n (w * h)); simpl; try exact Hq.
  destruct (truthy (aget redMap n) && negb (truthy (aget visited n)));
    [|exact Hq].
  apply Forall_app. split; [exact Hq|]. constructor; [lia | constructor].
Qed.

(** The loop of [floodFill] ends: every iteration lowers
    [4 * zeros visited + length queue]. *)
Lemma fillLoop_total fuel w h redMap st :
  w * h = Z.of_nat (length (fs_visited st)) ->
  Forall (fun i => 0 <= i < w * h) (fs_queue st) ->
  (4 * zeros (fs_visited st) + length (fs_queue st) < fuel)%nat ->
  exists st',
    fillLoop fuel w h redMap st = Some st'
    /\ length (fs_visited st') = length (fs_visited st).
Proof.
  revert st. induction fuel as [|fuel IH]; intros st Hwh Hq Hm; [lia|].
  destruct st as [queue visited pxs sx sy]. fs_simpl.
  destruct queue as [|idx queue]; cbn [fillLoop]; fs_simpl; [eauto|].
  apply Forall_cons in Hq as [Hidx Hq].
  unfold fillStep. fs_simpl.
  destruct (truthy (aget visited idx)) eqn:Hv.
  - apply IH; fs_simpl; try assumption. cbn [length] in Hm. lia.
  - assert (Hz : S (zeros (aset visited idx 1)) = zeros visited)
      by (apply zeros_aset_mark; [lia | exact Hv]).
    edestruct IH as (st' & Hst' & Hlen); [..|exists st'; split; [exact Hst'|]].
    + fs_simpl. rewrite length_aset. exact Hwh.
    + fs_simpl. apply pushNeighbors_range, Hq.
    + fs_simpl.
      pose proof (pushNeighbors_length w h redMap (aset visited idx 1)
                    (neighbors idx w) queue) as Hp.
      cbn [length neighbors] in Hp, Hm. lia.
    + rewrite Hlen. fs_simpl. apply length_aset.
Qed.

Lemma floodFill_total idx w h redMap visited :
  w * h = Z.of_nat (length visited) ->
  0 <= idx < w * h ->
  exists cluster visited',
    floodFill (fillFuel (length visited)) idx w h redMap visited
    = Some (cluster, visited')
    /\ length visited' = length visited.
Proof.
  intros Hwh Hidx. unfold floodFill.
  destruct (fillLoop_total (fillFuel (length visited)) w h redMap
              (mkFillState [idx] visited [] 0 0)) as (st' & -> & Hlen).
  - exact Hwh.
  - constructor; [exact Hidx | constructor].
  - fs_simpl. cbn [length]. unfold fillFuel.
    pose proof (zeros_le_length visited). lia.
  - eauto.
Qed.

Lemma labelLoop_total idxs w h redMap visited clusters :
  w * h = Z.of_nat (length visited) ->
  Forall (fun i => 0 <= i < w * h) idxs ->
  Forall bigEnough clusters ->
  exists out,
    labelLoop idxs w h redMap visited clusters = Some out
    /\ Forall bigEnough out.
Proof.
  revert visited clusters.
  induction idxs as [|idx idxs IH]; intros visited clusters Hwh Hi Hc; simpl.
  - eauto.
  - apply Forall_cons in Hi as [Hidx Hi].
    destruct (truthy (aget redMap idx) && negb (truthy (aget visited idx))).
    + destruct (floodFill_total idx w h redMap visited Hwh Hidx)
        as (cluster & visited' & -> & Hlen).
      apply IH; [congruence | exact Hi |].
      destruct (Nat.ltb_spec 20 (length (pixels cluster))); [|exact Hc].
      apply Forall_app. split; [exact Hc|].
      constructor; [exact H | constructor].
    + apply IH; assumption.
Qed.

Lemma findClusters_total img :
  exists clusters,
    findClusters img = Some clusters /\ Forall bigEnough clusters.
Proof.
  unfold findClusters. apply labelLoop_total.
  - rewrite length_replicate. lia.
  - apply Forall_seqZ. intros j Hj. lia.
  - constructor.
Qed.

(** *** The red map agrees with the colour test *)

Lemma redAt_short (d : list Z) j :
  (length d < 4)%nat -> redAt d (S j) = false.
Proof. intros H. apply redAt_outside. lia. Qed.

Lemma aset_lookup (m : list Z) (k j : nat) :
  aset m (Z.of_nat k) 1 !! j
  = if decide (k = j /\ (j < length m)%nat) then Some 1 else m !! j.
Proof.
  unfold aset. destruct (Z.ltb_spec (Z.of_nat k) 0) as [?|_]; [lia|].
  rewrite Nat2Z.id. case_decide as H.
  - destruct H as [-> H]. apply list_lookup_insert_eq, H.
  - destruct (decide (k = j)) as [->|Hne].
    + rewrite list_insert_ge by lia. reflexivity.
    + apply list_lookup_insert_ne, Hne.
Qed.

Lemma fillRedMap_length d : forall k m, length (fillRedMap d k m) = length m.
Proof.
  induction d as [|r|r g|r g b|r g b a l IH] using list_ind4;
    intros k m; cbn [fillRedMap]; try reflexivity;
    try (destruct (isRed _ _ _); rewrite ?length_aset; reflexivity).
  rewrite IH. destruct (isRed _ _ _); rewrite ?length_aset; reflexivity.
Qed.

Lemma fillRedMap_lookup d :
  forall (k : nat) (m : list Z) (j : nat),
    fillRedMap d (Z.of_nat k) m !! j
    = if decide ((k <= j)%nat /\ (j < length m)%nat
                 /\ redAt d (j - k) = true)
      then Some 1 else m !! j.
Proof.
  induction d as [|r|r g|r g b|r g b a l IH] using list_ind4;
    intros k m j.
  - cbn [fillRedMap]. case_decide as H; [|reflexivity].
    destruct H as (_ & _ & H). rewrite redAt_outside in H by (simpl; lia).
    discriminate.
  - cbn [fillRedMap]. rewrite <- redAt_head.
    destruct (redAt [r] 0) eqn:E0.
    + rewrite aset_lookup. repeat case_decide; try reflexivity.
      * destruct H as [-> ?]. exfalso. apply H0.
        rewrite Nat.sub_diag. auto.
      * destruct H0 as (? & ? & H0).
        destruct (j - k)%nat eqn:Ej; [exfalso; apply H; split; [lia|auto]|].
        rewrite redAt_short in H0 by (simpl; lia). discriminate.
    + case_decide as H; [|reflexivity]. destruct H as (? & ? & H).
      destruct (j - k)%nat; [congruence|].
      rewrite redAt_short in H by (simpl; lia). discriminate.
  - cbn [fillRedMap]. rewrite <- redAt_head.
    destruct (redAt [r; g] 0) eqn:E0.
    + rewrite aset_lookup. repeat case_decide; try reflexivity.
      * destruct H as [-> ?]. exfalso. apply H0.
        rewrite Nat.sub_diag. auto.
      * destruct H0 as (? & ? & H0).
        destruct (j - k)%nat eqn:Ej; [exfalso; apply H; split; [lia|auto]|].
        rewrite redAt_short in H0 by (simpl; lia). discriminate.
    + case_decide as H; [|reflexivity]. destruct H as (? & ? & H).
      destruct (j - k)%nat; [congruence|].
      rewrite redAt_short in H by (simpl; lia). discriminate.
  - cbn [fillRedMap]. rewrite <- redAt_head.
    destruct (redAt [r; g; b] 0) eqn:E0.
    + rewrite aset_lookup. repeat case_decide; try reflexivity.
      * destruct H as [-> ?]. exfalso. apply H0.
        rewrite Nat.sub_diag. auto.
      * destruct H0 as (? & ? & H0).
        destruct (j - k)%nat eqn:Ej; [exfalso; apply H; split; [lia|auto]|].
        rewrite redAt_short in H0 by (simpl; lia). discriminate.
    + case_decide as H; [|reflexivity]. destruct H as (? & ? & H).
      destruct (j - k)%nat; [congruence|].
      rewrite redAt_short in H by (simpl; lia). discriminate.
  - cbn [fillRedMap]. rewrite <- redAt_head.
    replace (Z.of_nat k + 1) with (Z.of_nat (S k)) by lia.
    rewrite IH.
    destruct (redAt (r :: g :: b :: a :: l) 0) eqn:E0.
    + rewrite length_aset, aset_lookup.
      repeat case_decide; try reflexivity; exfalso.
      * destruct H as (? & ? & H). apply H0. repeat split; try lia.
        replace (j - k)%nat with (S (j - S k)) by lia.
        rewrite redAt_group. exact H.
      * destruct H0 as [-> ?]. apply H1. rewrite Nat.sub_diag. auto.
      * destruct H1 as (? & ? & H1).
        destruct (decide (k = j)) as [->|?]; [apply H0; auto|].
        apply H. repeat split; try lia.
        replace (j - k)%nat with (S (j - S k)) in H1 by lia.
        rewrite redAt_group in H1. exact H1.
    + repeat case_decide; try reflexivity; exfalso.
      * destruct H as (? & ? & H). apply H0. repeat split; try lia.
        replace (j - k)%nat with (S (j - S k)) by lia.
        rewrite redAt_group. exact H.
      * destruct H0 as (? & ? & H0).
        destruct (decide (k = j)) as [->|?];
          [rewrite Nat.sub_diag in H0; congruence|].
        apply H. repeat split; try lia.
        replace (j - k)%nat with (S (j - S k)) in H0 by lia.
        rewrite redAt_group in H0. exact H0.
Qed.

(** Entry [j] of the red map is 1 exactly when pixel [j] passes the
    colour test. *)
Lemma redMap_spec d n j :
  (j < n)%nat ->
  fillRedMap d 0 (replicate n 0) !! j
  = Some (if redAt d j then 1 else 0).
Proof.
  intros Hj. change 0 with (Z.of_nat 0) at 1.
  rewrite fillRedMap_lookup, length_replicate, Nat.sub_0_r.
  rewrite lookup_replicate_2 by exact Hj.
  case_decide as H.
  - destruct H as (_ & _ & ->). reflexivity.
  - destruct (redAt d j); [exfalso; apply H; repeat split; lia | reflexivity].
Qed.

(** *** Sorting and truncation *)

Lemma insertCluster_perm c (l : list Cluster) : insertCluster c l ≡ₚ c :: l.
Proof.
  induction l as [|d l IH]; simpl; [reflexivity|].
  destruct (_ <=? _)%nat; [reflexivity|].
  rewrite IH. apply Permutation_swap.
Qed.

Lemma insertCluster_sorted c l :
  StronglySorted largerFirst l ->
  StronglySorted largerFirst (insertCluster c l).
Proof.
  induction 1 as [|d l Hs IH Hd]; simpl.
  - repeat constructor.
  - destruct (Nat.leb_spec (length (pixels d)) (length (pixels c))) as [Hle|Hlt].
    + constructor; [constructor; assumption|].
      constructor; [exact Hle|].
      eapply Forall_impl; [exact Hd|].
      unfold largerFirst. intros e He. lia.
    + constructor; [exact IH|].
      rewrite insertCluster_perm. constructor; [|exact Hd].
      unfold largerFirst. lia.
Qed.

Lemma sortClusters_perm (l : list Cluster) : sortClusters l ≡ₚ l.
Proof.
  induction l as [|c l IH]; simpl; [reflexivity|].
  rewrite insertCluster_perm, IH. reflexivity.
Qed.

Lemma sortClusters_sorted l : StronglySorted largerFirst (sortClusters l).
Proof.
  induction l as [|c l IH]; simpl; [constructor|].
  apply insertCluster_sorted, IH.
Qed.

Lemma pixelCount_toDetection (l : list Cluster) :
  pixelCount <$> (toDetection <$> l) = clusterSize <$> l.
Proof. induction l as [|c l IH]; simpl; [reflexivity|]. f_equal. exact IH. Qed.

Lemma findRedMarkers_shape img :
  exists qualifying,
    findClusters img = Some qualifying
    /\ Forall bigEnough qualifying
    /\ findRedMarkers img 4
       = Some (toDetection <$> take 4 (sortClusters qualifying)).
Proof.
  destruct (findClusters_total img) as (qualifying & Hq & Hbig).
  exists qualifying. repeat split; try assumption.
  unfold findRedMarkers, keptClusters. rewrite Hq. reflexivity.
Qed.

Lemma kept_output_ok qualifying :
  Forall bigEnough qualifying ->
  let ds := toDetection <$> take 4 (sortClusters qualifying) in
  (length ds <= 4)%nat
  /\ countsDescending (pixelCount <$> ds)
  /\ Forall (fun d => (20 < pixelCount d)%nat) ds.
Proof.
  intros Hbig ds. subst ds. repeat split.
  - rewrite length_fmap, length_take. lia.
  - rewrite pixelCount_toDetection.
    apply (StronglySorted_fmap clusterSize largerFirst).
    + unfold largerFirst, clusterSize. auto.
    + apply (StronglySorted_app_1_l _ _ (drop 4 (sortClusters qualifying))).
      rewrite take_drop. apply sortClusters_sorted.
  - apply Forall_fmap. apply Forall_take.
    rewrite sortClusters_perm. exact Hbig.
Qed.

End DetectorFacts.

Section ClusterFacts.

(** *** What the flood fill collects *)

Lemma aget_aset_same a i v :
  0 <= i < Z.of_nat (length a) -> aget (aset a i v) i = Some v.
Proof.
  intros Hi. unfold aget, aset.
  destruct (Z.ltb_spec i 0) as [?|_]; [lia|].
  apply list_lookup_insert_eq. lia.
Qed.

Lemma aget_aset_other a i j v : i <> j -> aget (aset a i v) j = aget a j.
Proof.
  intros Hne. unfold aget, aset.
  destruct (Z.ltb_spec j 0) as [?|Hj]; [reflexivity|].
  destruct (Z.ltb_spec i 0) as [?|Hi]; [reflexivity|].
  apply list_lookup_insert_ne. lia.
Qed.

Lemma aset_keeps_marks a i j :
  0 <= i < Z.of_nat (length a) ->
  truthy (aget a j) = true -> truthy (aget (aset a i 1) j) = true.
Proof.
  intros Hi Hj. destruct (decide (i = j)) as [->|Hne].
  - rewrite aget_aset_same by exact Hi. reflexivity.
  - rewrite aget_aset_other by exact Hne. exact Hj.
Qed.

Lemma pushNeighbors_good w h redMap visited ns queue :
  Forall (goodPixel w h redMap) queue ->
  Forall (goodPixel w h redMap) (pushNeighbors w h redMap visited ns queue).
Proof.
  unfold pushNeighbors. revert queue.
  induction ns as [|n ns IH]; intros queue Hq; simpl; [exact Hq|].
  apply IH.
  destruct (Z.leb_spec 0 n), (Z.ltb_spec n (w * h)); simpl; try exact Hq.
  destruct (truthy (aget redMap n)) eqn:Hr; simpl; [|exact Hq].
  destruct (negb (truthy (aget visited n))); [|exact Hq].
  apply Forall_app. split; [exact Hq|].
  constructor; [|constructor]. split; [lia | exact Hr].
Qed.

Lemma fillLoop_collects fuel w h redMap visited0 :
  w * h = Z.of_nat (length visited0) ->
  forall st st',
    fillInvariant w h redMap visited0 st ->
    fillLoop fuel w h redMap st = Some st' ->
    fillInvariant w h redMap visited0 st' /\ fs_queue st' = [].
Proof.
  intros Hwh. induction fuel as [|fuel IH]; intros st st' Hinv Hrun;
    [discriminate|].
  destruct st as [queue visited pxs sx sy]. cbn [fillLoop fs_queue] in Hrun.
  destruct queue as [|idx queue].
  { injection Hrun as <-. split; [exact Hinv | reflexivity]. }
  apply IH in Hrun; [exact Hrun|]. clear Hrun IH.
  destruct Hinv as (Hlen & Hq & Hpx & Hnd & Hmono).
  cbn [fs_queue fs_visited fs_pixels] in *.
  apply Forall_cons in Hq as [Hidx Hq].
  unfold fillStep. cbn [fs_queue fs_visited fs_pixels fs_sumX fs_sumY].
  destruct (truthy (aget visited idx)) eqn:Hv.
  - split; [exact Hlen | split; [exact Hq | split; [exact Hpx | split; assumption]]].
  - assert (Hin : 0 <= idx < Z.of_nat (length visited))
      by (destruct Hidx; lia).
    assert (Hnew : truthy (aget visited0 idx) = false).
    { destruct (truthy (aget visited0 idx)) eqn:H0; [|reflexivity].
      apply Hmono in H0. congruence. }
    split; [|split; [|split; [|split]]]; cbn [fs_queue fs_visited fs_pixels].
    + rewrite length_aset. exact Hlen.
    + apply pushNeighbors_good, Hq.
    + apply Forall_app. split.
      * eapply Forall_impl; [exact Hpx|].
        intros p (Hg & Hp & Hp0).
        split; [exact Hg | split; [|exact Hp0]].
        apply aset_keeps_marks; assumption.
      * constructor; [|constructor].
        split; [exact Hidx | split; [|exact Hnew]].
        rewrite aget_aset_same by exact Hin. reflexivity.
    + apply NoDup_app. split; [exact Hnd | split; [|apply NoDup_singleton]].
      intros p Hp Hp'. apply list_elem_of_singleton in Hp'. subst p.
      rewrite Forall_forall in Hpx. destruct (Hpx idx Hp) as (_ & Hvis & _).
      congruence.
    + intros j Hj. apply aset_keeps_marks; [exact Hin | apply Hmono, Hj].
Qed.

Lemma floodFill_collects fuel idx w h redMap visited cluster visited' :
  w * h = Z.of_nat (length visited) ->
  goodPixel w h redMap idx ->
  floodFill fuel idx w h redMap visited = Some (cluster, visited') ->
  length visited' = length visited
  /\ Forall (fun p => goodPixel w h redMap p
                      /\ truthy (aget visited' p) = true
                      /\ truthy (aget visited p) = false) (pixels cluster)
  /\ NoDup (pixels cluster)
  /\ (forall j, truthy (aget visited j) = true ->
                truthy (aget visited' j) = true).
Proof.
  intros Hwh Hidx. unfold floodFill.
  destruct (fillLoop _ _ _ _ _) as [st'|] eqn:Hrun; [|discriminate].
  intros H. injection H as <- <-. cbn [pixels].
  apply (fillLoop_collects fuel w h redMap visited Hwh) in Hrun
    as [(Hlen & _ & Hpx & Hnd & Hmono) _].
  - split; [exact Hlen | split; [exact Hpx | split; assumption]].
  - split; [reflexivity | split; [|split; [|split]]];
      cbn [fs_queue fs_visited fs_pixels];
      [constructor; [exact Hidx | constructor] | constructor
      | apply NoDup_nil_2 | auto].
Qed.

(** The clusters gathered by the labelling loop consist of marked red
    pixels and share none. *)
Lemma labelLoop_collects idxs w h redMap :
  forall visited clusters out,
    w * h = Z.of_nat (length visited) ->
    Forall (fun i => 0 <= i < w * h) idxs ->
    Forall (fun p => goodPixel w h redMap p
                     /\ truthy (aget visited p) = true)
      (mjoin (pixels <$> clusters)) ->
    NoDup (mjoin (pixels <$> clusters)) ->
    labelLoop idxs w h redMap visited clusters = Some out ->
    Forall (goodPixel w h redMap) (mjoin (pixels <$> out))
    /\ NoDup (mjoin (pixels <$> out)).
Proof.
  induction idxs as [|idx idxs IH];
    intros visited clusters out Hwh Hi Hpx Hnd Hrun; cbn [labelLoop] in Hrun.
  - injection Hrun as <-. split; [|exact Hnd].
    eapply Forall_impl; [exact Hpx|]. intros p [Hg _]. exact Hg.
  - apply Forall_cons in Hi as [Hidx Hi].
    destruct (truthy (aget redMap idx)) eqn:Hred; cbn [andb] in Hrun;
      [|eapply IH; eassumption].
    destruct (negb (truthy (aget visited idx))); [|eapply IH; eassumption].
    destruct (floodFill _ _ _ _ _ _) as [[cluster visited']|] eqn:Hfill;
      [|discriminate].
    apply floodFill_collects in Hfill as (Hlen & Hc & Hcnd & Hmono);
      [|exact Hwh | split; assumption].
    assert (Hold : Forall (fun p => goodPixel w h redMap p
                                    /\ truthy (aget visited' p) = true)
                     (mjoin (pixels <$> clusters))).
    { eapply Forall_impl; [exact Hpx|]. intros p [Hg Hv]. auto. }
    destruct (20 <? length (pixels cluster))%nat.
    + eapply IH; [| exact Hi | | | exact Hrun].
      * congruence.
      * rewrite fmap_app, join_app. apply Forall_app. split; [exact Hold|].
        cbn. rewrite app_nil_r.
        eapply Forall_impl; [exact Hc|]. intros p (Hg & Hv & _). auto.
      * rewrite fmap_app, join_app. cbn. rewrite app_nil_r.
        apply NoDup_app. split; [exact Hnd | split; [|exact Hcnd]].
        intros p Hp Hp'.
        rewrite Forall_forall in Hpx. destruct (Hpx p Hp) as [_ Hv].
        rewrite Forall_forall in Hc. destruct (Hc p Hp') as (_ & _ & Hv').
        congruence.
    + eapply IH; [| exact Hi | exact Hold | exact Hnd | exact Hrun].
      congruence.
Qed.

Lemma goodPixel_markerColored img p :
  goodPixel (Z.of_nat (width img)) (Z.of_nat (height img))
    (fillRedMap (data img) 0 (replicate (width img * height img) 0)) p ->
  markerColored img p.
Proof.
  intros [Hp Hred]. split; [exact Hp|].
  unfold aget in Hred. destruct (Z.ltb_spec p 0) as [?|_]; [lia|].
  rewrite redMap_spec in Hred by lia.
  destruct (redAt _ _); [reflexivity | discriminate].
Qed.

(** X1. The parts of the component property that hold for every frame: the
    clusters behind the detections consist of marker-coloured pixels of
    the frame, none listed twice and none shared by two clusters. *)
Lemma kept_clusters_red_and_disjoint img maxMarkers :
  exists kept,
    keptClusters img maxMarkers = Some kept
    /\ Forall (markerColored img) (mjoin (pixels <$> kept))
    /\ NoDup (mjoin (pixels <$> kept)).
Proof.
  destruct (findClusters_total img) as (clusters & Hfind & _).
  unfold keptClusters. rewrite Hfind. eexists. split; [reflexivity|].
  unfold findClusters in Hfind.
  apply labelLoop_collects in Hfind as [Hgood Hnd].
  - assert (Hperm : mjoin (pixels <$> sortClusters clusters)
                    ≡ₚ mjoin (pixels <$> clusters))
      by (rewrite sortClusters_perm; reflexivity).
    rewrite <- Hperm in Hgood, Hnd.
    rewrite <- (take_drop maxMarkers (sortClusters clusters)) in Hgood, Hnd.
    rewrite fmap_app, join_app in Hgood, Hnd.
    apply Forall_app in Hgood as [Hgood _].
    apply NoDup_app in Hnd as (Hnd & _ & _).
    split; [|exact Hnd].
    eapply Forall_impl; [exact Hgood|].
    intros p. apply goodPixel_markerColored.
  - rewrite length_replicate. lia.
  - apply Forall_seqZ. intros j Hj. lia.
  - constructor.
  - apply NoDup_nil_2.
Qed.

End ClusterFacts.

(** * Specified properties of the detectors *)

(** C3. For every frame the multi-cluster [detect] returns at most four
    detections, in descending order of pixel count, none of them with 20
    pixels or fewer; the returned counts are the largest among the
    qualifying clusters (every dropped cluster is no larger than every
    returned one), and exactly four are returned when more than four
    qualify. *)
Theorem detect_sorted_capped :
  (forall v, exists ds,
      detect v = Some ds
      /\ (length ds <= 4)%nat
      /\ countsDescending (pixelCount <$> ds)
      /\ Forall (fun d => (20 < pixelCount d)%nat) ds)
  /\ (forall img, exists qualifying ds dropped,
        findClusters img = Some qualifying
        /\ Forall bigEnough qualifying
        /\ findRedMarkers img 4 = Some ds
        /\ clusterSize <$> qualifying ≡ₚ (pixelCount <$> ds) ++ dropped
        /\ (forall n m, n ∈ pixelCount <$> ds -> m ∈ dropped -> (m <= n)%nat)
        /\ length ds = Nat.min 4 (length qualifying)).
Proof.
  split.
  - intros v. unfold detect.
    destruct (negb _).
    + exists []. repeat split; try constructor. simpl. lia.
    + destruct (findRedMarkers_shape (frame v)) as (q & _ & Hbig & ->).
      eexists. split; [reflexivity|]. apply kept_output_ok, Hbig.
  - intros img.
    destruct (findRedMarkers_shape img) as (q & Hq & Hbig & Hds).
    exists q, (toDetection <$> take 4 (sortClusters q)),
      (clusterSize <$> drop 4 (sortClusters q)).
    repeat split; try assumption.
    + rewrite pixelCount_toDetection, <- fmap_app, take_drop.
      rewrite sortClusters_perm. reflexivity.
    + rewrite pixelCount_toDetection. intros n m Hn Hm.
      apply list_elem_of_fmap in Hn as (c & -> & Hc).
      apply list_elem_of_fmap in Hm as (e & -> & He).
      pose proof (sortClusters_sorted q) as Hs.
      rewrite <- (take_drop 4 (sortClusters q)) in Hs.
      exact (StronglySorted_app_1_elem_of _ _ _ c e Hs Hc He).
    + rewrite length_fmap, length_take.
      rewrite (Permutation_length (sortClusters_perm q)). reflexivity.
Qed.



Section PaintedFrames.

Lemma paintPixel_length red py px : length (paintPixel red py px) = 4%nat.
Proof. unfold paintPixel. destruct (red px py); reflexivity. Qed.

Lemma paintRow_length w red py : length (paintRow w red py) = (4 * w)%nat.
Proof.
  unfold paintRow. rewrite length_join, <- list_fmap_compose.
  rewrite (sum_list_fmap_same 4).
  - rewrite length_seq. lia.
  - apply Forall_forall. intros px _. apply paintPixel_length.
Qed.

Lemma paint_well_formed w h red : well_formed (paint w h red).
Proof.
  unfold well_formed, paint. cbn [data width height].
  rewrite length_join, <- list_fmap_compose.
  rewrite (sum_list_fmap_same (4 * w)).
  - rewrite length_seq. lia.
  - apply Forall_forall. intros py _. apply paintRow_length.
Qed.

(** Byte [c] of pixel [(px, py)] of a painted frame. *)
Lemma paint_byte w h red px py c v :
  (px < w)%nat -> (py < h)%nat ->
  paintPixel red py px !! c = Some v ->
  data (paint w h red) !! (4 * (py * w + px) + c)%nat = Some v.
Proof.
  intros Hx Hy Hv.
  assert (Hc : (c < 4)%nat).
  { apply lookup_lt_Some in Hv. rewrite paintPixel_length in Hv. exact Hv. }
  unfold paint. cbn [data].
  replace (4 * (py * w + px) + c)%nat with (py * (4 * w) + (px * 4 + c))%nat
    by lia.
  apply (join_lookup_Some_same_length' (4 * w)).
  - apply Forall_fmap, Forall_forall. intros ? _. apply paintRow_length.
  - lia.
  - exists (paintRow w red py). split.
    + rewrite list_lookup_fmap, lookup_seq_lt by exact Hy. reflexivity.
    + unfold paintRow. apply (join_lookup_Some_same_length' 4).
      * apply Forall_fmap, Forall_forall. intros ? _. apply paintPixel_length.
      * exact Hc.
      * exists (paintPixel red py px). split; [|exact Hv].
        rewrite list_lookup_fmap, lookup_seq_lt by exact Hx. reflexivity.
Qed.

(** The marker-coloured pixels of a painted frame are those selected by
    the painting predicate. *)
Lemma paint_redAt w h red px py :
  (px < w)%nat -> (py < h)%nat ->
  redAt (data (paint w h red)) (py * w + px) = red px py.
Proof.
  intros Hx Hy. unfold redAt.
  replace (4 * (py * w + px))%nat with (4 * (py * w + px) + 0)%nat at 1 by lia.
  assert (Hb : forall c v, paintPixel red py px !! c = Some v ->
                 data (paint w h red) !! (4 * (py * w + px) + c)%nat = Some v)
    by (intros c v; apply paint_byte; assumption).
  unfold paintPixel in Hb. destruct (red px py).
  - rewrite (Hb 0%nat 255), (Hb 1%nat 0), (Hb 2%nat 0); reflexivity.
  - rewrite (Hb 0%nat 0), (Hb 1%nat 0), (Hb 2%nat 0); reflexivity.
Qed.

End PaintedFrames.

(** C5. On the 100x100 frame whose marker-coloured pixels are exactly the
    400-pixel square with corners (10,10) and (30,30), the multi-cluster
    [detect] returns exactly one detection, of pixel mass 400 and centroid
    (19.5, 19.5), which is within half a pixel of (20,20); the ratio variant
    reports [found = true] on the same frame. *)
Theorem square_scenario :
  let expected :=
    [mkDetection (JNum (Qmake 7800 400)) (JNum (Qmake 7800 400))
       400 400 [0; 0; 0] [0; 0; 1]] in
  let video := mkVideoElement HAVE_ENOUGH_DATA squareFrame in
  well_formed squareFrame
  /\ (forall px py, (px < 100)%nat -> (py < 100)%nat ->
        redAt (data squareFrame) (py * 100 + px) = inSquare 10 30 px py)
  /\ findRedMarkers squareFrame 4 = Some expected
  /\ detect video = Some expected
  /\ Forall (fun d => jseq (x d) (JNum (Qmake 39 2))
                      /\ jseq (y d) (JNum (Qmake 39 2))
                      /\ near (x d) (Qmake 20 1) (Qmake 1 2)
                      /\ near (y d) (Qmake 20 1) (Qmake 1 2)
                      /\ pixelCount d = 400%nat) expected
  /\ found (detectRatioFrame squareFrame) = true
  /\ found (detectRatio video) = true.
Proof.
  intros expected video.
  assert (Hm : findRedMarkers squareFrame 4 = Some expected)
    by (vm_compute; reflexivity).
  assert (Hr : found (detectRatioFrame squareFrame) = true)
    by (vm_compute; reflexivity).
  split; [apply paint_well_formed|].
  split; [intros px py Hx Hy; apply paint_redAt; assumption|].
  split; [exact Hm|].
  split; [exact Hm|].
  split; [|split; [exact Hr | exact Hr]].
  constructor; [|constructor]. cbn [x y pixelCount jseq near].
  repeat split; try reflexivity; vm_compute; discriminate.
Qed.

Section RowWrap.

Lemma twoColumns_red_not_middle r :
  markerColored twoColumnsFrame r -> r mod 3 <> 1.
Proof.
  intros [Hr Hred].
  change (Z.of_nat (width twoColumnsFrame)
          * Z.of_nat (height twoColumnsFrame)) with 33 in Hr.
  rewrite <- (Z2Nat.id r) by lia.
  assert (Hk : (Z.to_nat r < 33)%nat) by lia.
  revert Hred Hk. generalize (Z.to_nat r) as k. intros k Hred Hk.
  do 33 (destruct k as [|k];
         [first [ vm_compute in Hred; discriminate Hred
                | vm_compute; discriminate ] |]).
  lia.
Qed.

(** Chains of adjacent red pixels starting in the left column stay in
    the left column. *)
Lemma twoColumns_left_closed q :
  connected4 twoColumnsFrame 0 q -> q mod 3 = 0.
Proof.
  induction 1 as [_|q r _ IH Hadj Hred]; [reflexivity|].
  pose proof (twoColumns_red_not_middle r Hred) as Hmid.
  change (Z.of_nat (width twoColumnsFrame)) with 3 in Hadj.
  pose proof (Z.mod_pos_bound r 3 ltac:(lia)) as Hb.
  destruct Hadj as [[_ Hh]|[Hv _]]; lia.
Qed.

End RowWrap.

(** C1 (the code departs from the specification). On the 3x11 frame whose left and
    right columns are red, the flood fill returns a single cluster of 22
    pixels that contains both pixel 0 (left column) and pixel 2 (right
    column), although no chain of horizontally or vertically adjacent red
    pixels joins them: index [idx + 1] of a row's last pixel is the first
    pixel of the next row, and the fill treats the two as neighbours.
    ([kept_clusters_red_and_disjoint] covers the rest of C1: on
    every frame the clusters are disjoint and made of marker-coloured
    pixels.) *)
Theorem floodFill_joins_across_row_ends :
  exists c,
    keptClusters twoColumnsFrame 4 = Some [c]
    /\ findRedMarkers twoColumnsFrame 4 = Some [toDetection c]
    /\ pixelCount (toDetection c) = 22%nat
    /\ 0 ∈ pixels c /\ 2 ∈ pixels c
    /\ markerColored twoColumnsFrame 0
    /\ markerColored twoColumnsFrame 2
    /\ ~ connected4 twoColumnsFrame 0 2.
Proof.
  eexists. split; [vm_compute; reflexivity|].
  split; [vm_compute; reflexivity|].
  split; [reflexivity|].
  split; [set_solver|]. split; [set_solver|].
  split; [split; [vm_compute; split; congruence | reflexivity]|].
  split; [split; [vm_compute; split; congruence | reflexivity]|].
  intros H. apply twoColumns_left_closed in H. discriminate H.
Qed.

(** * Properties of the applications *)

Section TickFacts.






End TickFacts.

Section EventFacts.



End EventFacts.

(** * Specified properties of the applications *)



(** The marker events of the sample run, tick by tick. *)
Example sample_run_events :
  (fun '(_, es, _) => markerEvents es)
    <$> runTicks ARApp.tick startState
          [nothingSeen; markerSeen; markerSeen; nothingSeen; shortBuffer;
           markerSeen; shortBuffer; nothingSeen]
  = [[]; [MarkerFound]; []; [MarkerLost]; []; [MarkerFound]; [MarkerLost]; []].
Proof. vm_compute. reflexivity. Qed.


(** The first application has no handler around its frame work: a
    throwing renderer makes [animate] throw (the next frame is requested
    all the same). *)
Remark Legacy_animate_propagates e a :
  exists a', Legacy.animate (Legacy.mkTickEnv false None (Thrown e)) a
             = (Thrown e, a', [RequestFrame]).
Proof. eexists. reflexivity. Qed.

(** C10. In the AR.js application the video mesh is visible exactly while
    [isMarkerDetected] holds: this is so when [init] starts the loop, every
    tick preserves it, and both flag changes (the assignment followed by
    its handler) establish it whenever the mesh exists. *)
Theorem videoMesh_visible_iff_tracking :
  (forall t camera video, meshInvariant (ARApp.initial t camera video))
  /\ (forall env a,
        meshInvariant a -> meshInvariant (fst (ARApp.tick env a)))
  /\ (forall a,
        is_Some (ARApp.videoMesh a) ->
        (let '(_, a', _) := ARApp.markerFoundTransition a in meshInvariant a')
        /\ (let '(_, a', _) := ARApp.markerLostTransition a in
            meshInvariant a')).
Proof.
  split; [|split].
  - intros t camera video. eexists. split; reflexivity.
  - intros env a (m & Hm & Hvis).
    destruct env as [now rs dr pr mn tm ld rd].
    destruct a as [ac ve re mg vm det fc lf el ms vs fps].
    cbn in Hm, Hvis. subst vm. destruct m as [vis vid]. cbn in Hvis. subst vis.
    unfold meshInvariant. unfold_arapp. tick_cases.
    all: eexists; split; reflexivity.
  - intros a [m Hm].
    destruct a as [ac ve re mg vm det fc lf el ms vs fps].
    cbn in Hm. subst vm. destruct m as [vis vid].
    unfold meshInvariant. unfold_arapp. split.
    + tick_cases. all: eexists; split; reflexivity.
    + tick_cases. all: eexists; split; reflexivity.
Qed.

Lemma videoMesh_visible_iff_tracking_witness :
  meshInvariant (fst (ARApp.tick markerSeen startState))
  /\ meshInvariant
       (fst (ARApp.tick nothingSeen (fst (ARApp.tick markerSeen startState))))
  /\ (let '(_, a', _) := ARApp.markerFoundTransition startState in
      meshInvariant a').
Proof.
  destruct videoMesh_visible_iff_tracking as (Hinit & Htick & Htrans).
  split; [apply Htick, Hinit|].
  split; [apply Htick, Htick, Hinit|].
  apply (Htrans startState). eexists. reflexivity.
Defined.

(** C7. When the marker is lost the AR.js application hides the video mesh
    and pauses its video without moving the playback position
    ([pauseVideo], not [stopVideo]), so that the next [onMarkerFound] shows
    the mesh and plays from the same position; the same holds for every
    tick that fires [MarkerLost]. *)
Theorem markerLost_pauses_in_place :
  (forall a t,
      playbackAt a t ->
      exists a' es,
        ARApp.onMarkerLost a = (Normal tt, a', es)
        /\ hiddenPausedAt a' t
        /\ exists a'' es',
             ARApp.onMarkerFound a' = (Normal tt, a'', es')
             /\ shownPlayingAt a'' t)
  /\ (forall env a t,
        playbackAt a t ->
        MarkerLost ∈ snd (ARApp.tick env a) ->
        hiddenPausedAt (fst (ARApp.tick env a)) t).
Proof.
  split.
  - intros a t (m & v & Hm & Hv & Ht).
    destruct a as [ac ve re mg vm det fc lf el ms vs fps].
    cbn in Hm. subst vm. destruct m as [vis vid]. cbn in Hv. subst vid.
    destruct v as [[|] ct]; cbn in Ht; subst ct.
    + do 2 eexists. split; [reflexivity|].
      split; [do 2 eexists; repeat split; reflexivity|].
      do 2 eexists. split; [reflexivity|].
      do 2 eexists; repeat split; reflexivity.
    + do 2 eexists. split; [reflexivity|].
      split; [do 2 eexists; repeat split; reflexivity|].
      do 2 eexists. split; [reflexivity|].
      do 2 eexists; repeat split; reflexivity.
  - intros env a t (m & v & Hm & Hv & Ht).
    destruct env as [now rs dr pr mn tm ld rd].
    destruct a as [ac ve re mg vm det fc lf el ms vs fps].
    cbn in Hm. subst vm. destruct m as [vis vid]. cbn in Hv. subst vid.
    destruct v as [[|] ct]; cbn in Ht; subst ct.
    all: unfold hiddenPausedAt; unfold_arapp; tick_cases.
    all: intros Hin;
      first [ absurd_event Hin | do 2 eexists; repeat split; reflexivity ].
Qed.

Lemma markerLost_pauses_in_place_witness :
  let tracking := fst (ARApp.tick markerSeen startState) in
  (exists a' es,
      ARApp.onMarkerLost tracking = (Normal tt, a', es)
      /\ hiddenPausedAt a' (Qmake 7 2)
      /\ exists a'' es',
           ARApp.onMarkerFound a' = (Normal tt, a'', es')
           /\ shownPlayingAt a'' (Qmake 7 2))
  /\ hiddenPausedAt (fst (ARApp.tick nothingSeen tracking)) (Qmake 7 2).
Proof.
  intros tracking.
  assert (Hplay : playbackAt tracking (Qmake 7 2))
    by (do 2 eexists; repeat split; reflexivity).
  destruct markerLost_pauses_in_place as (Hhandler & Htick).
  split; [apply Hhandler, Hplay|].
  apply Htick; [exact Hplay|].
  apply list_elem_of_In. vm_compute. tauto.
Defined.

(** The first application's [onMarkerLost] pauses in place as well, but it
    leaves the video plane as visible as it was. *)
Remark Legacy_onMarkerLost_pauses_only a v :
  userDataVideo (Legacy.arVideo a) = Some v ->
  exists a' es,
    Legacy.onMarkerLost a = (Normal tt, a', es)
    /\ userDataVideo (Legacy.arVideo a') = Some (mkVideo true (currentTime v))
    /\ visible (Legacy.arVideo a') = visible (Legacy.arVideo a).
Proof.
  intros Hv. destruct a as [trk [vis vid] cp vp dbg]. cbn in Hv. subst vid.
  do 2 eexists. repeat split; reflexivity.
Qed.

(** [stopVideo], which the loss path does not call, is the operation that
    returns to the start. *)
Remark stopVideo_rewinds m v a :
  userDataVideo m = Some v ->
  exists m' es,
    ARApp.stopVideo m a = (Normal m', a, es)
    /\ userDataVideo m' = Some (mkVideo true (Qmake 0 1)).
Proof.
  intros Hv. unfold ARApp.stopVideo. rewrite Hv.
  do 2 eexists. split; reflexivity.
Qed.




(** * Properties of the asset loader *)

Section LoaderFacts.
Import AssetLoader.

Lemma isFrame_true name p f : isFrame name p f = true <-> f = (name, p).
Proof. unfold isFrame. apply bool_decide_eq_true. Qed.

Lemma frame_suspended name p (fs : list (string * PromiseId)) :
  existsb (isFrame name p) fs = true <-> (name, p) ∈ fs.
Proof.
  rewrite existsb_exists, list_elem_of_In. split.
  - intros (f & Hin & Hf). apply isFrame_true in Hf. subst f. exact Hin.
  - intros Hin. exists (name, p). split; [exact Hin | apply isFrame_true; reflexivity].
Qed.

Lemma other_frames name p (fs : list (string * PromiseId)) f :
  f ∈ List.filter (fun f => negb (isFrame name p f)) fs
  <-> f ∈ fs /\ f <> (name, p).
Proof.
  rewrite !list_elem_of_In, filter_In, negb_true_iff.
  unfold isFrame. rewrite bool_decide_eq_false. reflexivity.
Qed.

Lemma consistent_empty : consistent empty.
Proof.
  unfold consistent, empty. cbn. split; [|split; [|split]].
  - intros n p. rewrite lookup_empty. split; [|discriminate].
    intros H. inversion H.
  - intros n p. rewrite lookup_empty. discriminate.
  - intros n p. rewrite lookup_empty. discriminate.
  - intros p [x H]. rewrite lookup_empty in H. discriminate.
Qed.

Lemma consistent_call url name l :
  consistent l -> consistent (fst (loadVideoTexture url name l)).
Proof.
  intros Hc. pose proof Hc as (Hs & Hl & Hp & Hd). unfold loadVideoTexture.
  destruct (loadedAssets l !! name) as [a|] eqn:Ha; [exact Hc|].
  destruct (loadingPromises l !! name) as [p|] eqn:Hq; [exact Hc|].
  unfold consistent. cbn. split; [|split; [|split]].
  - intros n p. rewrite elem_of_app, list_elem_of_singleton, Hs.
    destruct (decide (name = n)) as [->|Hne].
    + rewrite lookup_insert_eq, Hq. split.
      * intros [H|H]; [discriminate | inversion H; reflexivity].
      * intros H. right. inversion H. reflexivity.
    + rewrite lookup_insert_ne by exact Hne. split; [|auto].
      intros [H|H]; [exact H | inversion H; subst; contradiction].
  - intros n p. destruct (decide (name = n)) as [->|Hne].
    + intros _. exact Ha.
    + rewrite lookup_insert_ne by exact Hne. apply Hl.
  - intros n p. destruct (decide (name = n)) as [->|Hne].
    + rewrite lookup_insert_eq. intros H. injection H as <-.
      rewrite lookup_insert_eq. eauto.
    + rewrite lookup_insert_ne by exact Hne. intros H.
      destruct (decide (length (decodes l) = p)) as [->|Hnp].
      * rewrite lookup_insert_eq. eauto.
      * rewrite lookup_insert_ne by exact Hnp. eapply Hp, H.
  - intros p. rewrite length_app. cbn.
    destruct (decide (length (decodes l) = p)) as [->|Hnp]; [lia|].
    rewrite lookup_insert_ne by exact Hnp. intros H. apply Hd in H. lia.
Qed.

Lemma consistent_settle p r l : consistent l -> consistent (settle p r l).
Proof.
  intros Hc. pose proof Hc as (Hs & Hl & Hp & Hd). unfold settle.
  destruct (promises l !! p) as [[| |]|] eqn:Hpp; try exact Hc.
  assert (Hkeep : forall q,
            is_Some (<[p := r]> (promises l) !! q) <-> is_Some (promises l !! q)).
  { intros q. destruct (decide (p = q)) as [->|Hne].
    - rewrite lookup_insert_eq, Hpp. split; eauto.
    - rewrite lookup_insert_ne by exact Hne. reflexivity. }
  destruct r; try exact Hc.
  - unfold consistent. cbn. split; [exact Hs | split; [exact Hl | split]].
    + intros n q H. apply Hkeep. eapply Hp, H.
    + intros q H. apply Hd, Hkeep, H.
  - unfold consistent. cbn. split; [exact Hs | split; [exact Hl | split]].
    + intros n q H. apply Hkeep. eapply Hp, H.
    + intros q H. apply Hd, Hkeep, H.
Qed.

Lemma consistent_resume name p l l' r :
  consistent l -> resume name p l = Some (l', r) -> consistent l'.
Proof.
  intros (Hs & Hl & Hp & Hd). unfold resume.
  destruct (existsb _ _) eqn:Hex; [|discriminate].
  apply frame_suspended, Hs in Hex.
  assert (Hframes : forall n q,
            (n, q) ∈ List.filter (fun f => negb (isFrame name p f)) (suspended l)
            <-> delete name (loadingPromises l) !! n = Some q).
  { intros n q. rewrite other_frames, Hs.
    destruct (decide (name = n)) as [->|Hne].
    - rewrite lookup_delete_eq. split; [|discriminate].
      intros [H Hneq]. rewrite Hex in H. injection H as <-. congruence.
    - rewrite lookup_delete_ne by exact Hne. split; [tauto|].
      intros H. split; [exact H | congruence]. }
  assert (Hrest : forall n q,
            delete name (loadingPromises l) !! n = Some q ->
            n <> name /\ loadingPromises l !! n = Some q).
  { intros n q. destruct (decide (name = n)) as [->|Hne].
    - rewrite lookup_delete_eq. discriminate.
    - rewrite lookup_delete_ne by exact Hne. auto. }
  destruct (promises l !! p) as [[|a|e]|] eqn:Hpp; try discriminate;
    intros H; injection H as <- <-; unfold consistent; cbn;
    (split; [exact Hframes | split; [|split; [|exact Hd]]]).
  - intros n q H. apply Hrest in H as [Hne H].
    rewrite lookup_insert_ne by congruence. eapply Hl, H.
  - intros n q H. apply Hrest in H as [_ H]. eapply Hp, H.
  - intros n q H. apply Hrest in H as [_ H]. eapply Hl, H.
  - intros n q H. apply Hrest in H as [_ H]. eapply Hp, H.
Qed.

Lemma consistent_dispose name l : consistent l -> consistent (dispose name l).
Proof.
  intros Hc. pose proof Hc as (Hs & Hl & Hp & Hd). unfold dispose.
  destruct (loadedAssets l !! name); [|exact Hc].
  unfold consistent. cbn. split; [exact Hs | split; [|split; assumption]].
  intros n p H. apply lookup_delete_None. right. eapply Hl, H.
Qed.

Lemma consistent_step l ev : consistent l -> consistent (step l ev).
Proof.
  intros Hc. destruct ev as [url name|p r|name p|name]; cbn.
  - apply consistent_call, Hc.
  - apply consistent_settle, Hc.
  - destruct (resume name p l) as [[l' r]|] eqn:Hr; [|exact Hc].
    eapply consistent_resume; eassumption.
  - apply consistent_dispose, Hc.
Qed.

Lemma consistent_exec evs : forall l, consistent l -> consistent (exec l evs).
Proof.
  induction evs as [|ev evs IH]; intros l Hc; [exact Hc|].
  apply IH, consistent_step, Hc.
Qed.

(** While the first caller of [name] waits, nothing touches the pending
    entry of [name], and no further load of [name] is started. *)
Lemma in_flight_step name p l ev :
  loadedAssets l !! name = None ->
  loadingPromises l !! name = Some p ->
  match ev with Resume n _ => n <> name | _ => True end ->
  loadedAssets (step l ev) !! name = None
  /\ loadingPromises (step l ev) !! name = Some p
  /\ decodesOf name (step l ev) = decodesOf name l.
Proof.
  intros Ha Hp Hev. destruct ev as [url n|q r|n q|n]; cbn.
  - unfold loadVideoTexture.
    destruct (loadedAssets l !! n) eqn:Hn; [auto|].
    destruct (loadingPromises l !! n) eqn:Hq; [auto|].
    assert (Hne : n <> name) by congruence.
    cbn. repeat split; [exact Ha | rewrite lookup_insert_ne; assumption |].
    unfold decodesOf. cbn. rewrite List.filter_app. cbn.
    rewrite bool_decide_eq_false_2 by exact Hne. apply app_nil_r.
  - unfold settle.
    destruct (promises l !! q) as [[| |]|]; destruct r; auto.
  - unfold resume. destruct (existsb _ _); [|auto].
    destruct (promises l !! q) as [[|a|e]|]; auto; cbn; repeat split;
      rewrite ?lookup_insert_ne, ?lookup_delete_ne by congruence; auto.
  - unfold dispose. destruct (loadedAssets l !! n); [|auto].
    cbn. repeat split; [|exact Hp].
    apply lookup_delete_None. right. exact Ha.
Qed.

Lemma in_flight_exec name p evs :
  forall l,
    loadedAssets l !! name = None ->
    loadingPromises l !! name = Some p ->
    firstStillWaiting name evs ->
    loadedAssets (exec l evs) !! name = None
    /\ loadingPromises (exec l evs) !! name = Some p
    /\ decodesOf name (exec l evs) = decodesOf name l.
Proof.
  induction evs as [|ev evs IH]; intros l Ha Hp Hw; [auto|].
  apply Forall_cons in Hw as [Hev Hw].
  destruct (in_flight_step name p l ev Ha Hp Hev) as (Ha' & Hp' & Hd').
  destruct (IH (step l ev) Ha' Hp' Hw) as (Ha'' & Hp'' & Hd'').
  change (exec l (ev :: evs)) with (exec (step l ev) evs).
  repeat split; [exact Ha'' | exact Hp'' | rewrite Hd'', Hd'; reflexivity].
Qed.

(** Once loaded, an asset stays in the cache until it is disposed, and no
    load of its name is started meanwhile. *)
Lemma cached_step name a l ev :
  consistent l ->
  loadedAssets l !! name = Some a ->
  match ev with Dispose n => n <> name | _ => True end ->
  loadedAssets (step l ev) !! name = Some a
  /\ decodesOf name (step l ev) = decodesOf name l.
Proof.
  intros (Hs & Hl & _) Ha Hev. destruct ev as [url n|q r|n q|n]; cbn.
  - unfold loadVideoTexture.
    destruct (loadedAssets l !! n) eqn:Hn; [auto|].
    destruct (loadingPromises l !! n); [auto|].
    assert (Hne : n <> name) by congruence.
    cbn. split; [exact Ha|].
    unfold decodesOf. cbn. rewrite List.filter_app. cbn.
    rewrite bool_decide_eq_false_2 by exact Hne. apply app_nil_r.
  - unfold settle.
    destruct (promises l !! q) as [[| |]|]; destruct r; auto.
  - unfold resume. destruct (existsb _ _) eqn:Hex; [|auto].
    apply frame_suspended, Hs, Hl in Hex.
    assert (Hne : n <> name) by congruence.
    destruct (promises l !! q) as [[|b|e]|]; cbn; auto.
    rewrite lookup_insert_ne by exact Hne. auto.
  - unfold dispose. destruct (loadedAssets l !! n); [|auto].
    cbn. rewrite lookup_delete_ne by exact Hev. auto.
Qed.

Lemma cached_exec name a evs :
  forall l,
    consistent l ->
    loadedAssets l !! name = Some a ->
    keepsAsset name evs ->
    loadedAssets (exec l evs) !! name = Some a
    /\ decodesOf name (exec l evs) = decodesOf name l.
Proof.
  induction evs as [|ev evs IH]; intros l Hc Ha Hk; [auto|].
  apply Forall_cons in Hk as [Hev Hk].
  destruct (cached_step name a l ev Hc Ha Hev) as [Ha' Hd'].
  destruct (IH (step l ev) (consistent_step l ev Hc) Ha' Hk) as [Ha'' Hd''].
  change (exec l (ev :: evs)) with (exec (step l ev) evs).
  split; [exact Ha'' | rewrite Hd'', Hd'; reflexivity].
Qed.

End LoaderFacts.

(** * Specified property of the asset loader *)

(** C8. The first [loadVideoTexture] for a name starts one load and
    waits for its promise. Until that call resumes, every further call for
    the name adopts the very same promise and starts no load, so that all
    callers end up with the one asset object the promise is fulfilled
    with; once the first call has stored it, every later call returns that
    cached asset, for as long as it is not disposed. *)
Theorem loadVideoTexture_idempotent (l : AssetLoader.Loader) (url name : string) :
  consistent l ->
  AssetLoader.loadedAssets l !! name = None ->
  AssetLoader.loadingPromises l !! name = None ->
  exists p l1,
    AssetLoader.loadVideoTexture url name l = (l1, AssetLoader.Awaiting p)
    /\ AssetLoader.decodes l1 = AssetLoader.decodes l ++ [(url, name)]
    /\ forall evs,
         firstStillWaiting name evs ->
         let l2 := AssetLoader.exec l1 evs in
         (forall url2,
             AssetLoader.loadVideoTexture url2 name l2
             = (l2, AssetLoader.Adopted p))
         /\ AssetLoader.decodesOf name l2 = AssetLoader.decodesOf name l1
         /\ forall a,
              AssetLoader.promises l2 !! p = Some (AssetLoader.Fulfilled a) ->
              exists l3,
                AssetLoader.resume name p l2 = Some (l3, Normal a)
                /\ AssetLoader.outcomeValue l3 (AssetLoader.Adopted p)
                   = Some (Normal a)
                /\ forall evs' url3,
                     keepsAsset name evs' ->
                     let l4 := AssetLoader.exec l3 evs' in
                     AssetLoader.loadVideoTexture url3 name l4
                     = (l4, AssetLoader.Returned a)
                     /\ AssetLoader.decodesOf name l4
                        = AssetLoader.decodesOf name l ++ [(url, name)].
Proof.
  intros Hc Ha Hp.
  set (p := length (AssetLoader.decodes l)).
  set (l1 := AssetLoader.mkLoader (AssetLoader.loadedAssets l)
               (<[name := p]> (AssetLoader.loadingPromises l))
               (<[p := AssetLoader.Pending]> (AssetLoader.promises l))
               (AssetLoader.decodes l ++ [(url, name)])
               (AssetLoader.suspended l ++ [(name, p)])).
  assert (Hcall : AssetLoader.loadVideoTexture url name l
                  = (l1, AssetLoader.Awaiting p))
    by (unfold AssetLoader.loadVideoTexture; rewrite Ha, Hp; reflexivity).
  assert (Hc1 : consistent l1).
  { pose proof (consistent_call url name l Hc) as H.
    rewrite Hcall in H. exact H. }
  exists p, l1. split; [exact Hcall|]. split; [reflexivity|].
  intros evs Hw l2.
  destruct (in_flight_exec name p evs l1) as (Ha2 & Hp2 & Hd2);
    [exact Ha | apply lookup_insert_eq | exact Hw |].
  fold l2 in Ha2, Hp2, Hd2.
  assert (Hc2 : consistent l2) by (apply consistent_exec, Hc1).
  split; [|split; [exact Hd2|]].
  - intros url2. unfold AssetLoader.loadVideoTexture. rewrite Ha2, Hp2.
    reflexivity.
  - intros a Hful.
    assert (Hfr : existsb (AssetLoader.isFrame name p) (AssetLoader.suspended l2)
                  = true).
    { apply frame_suspended. destruct Hc2 as (Hs & _). apply Hs, Hp2. }
    unfold AssetLoader.resume. rewrite Hfr, Hful.
    eexists. split; [reflexivity|].
    set (l3 := AssetLoader.mkLoader _ _ _ _ _).
    assert (Hc3 : consistent l3).
    { apply (consistent_resume name p l2 l3 (Normal a) Hc2).
      unfold AssetLoader.resume. rewrite Hfr, Hful. reflexivity. }
    split.
    + unfold AssetLoader.outcomeValue. subst l3. cbn. rewrite Hful. reflexivity.
    + intros evs' url3 Hk. cbv zeta.
      set (l4 := AssetLoader.exec l3 evs').
      destruct (cached_exec name a evs' l3 Hc3) as [Ha4 Hd4];
        [subst l3; cbn; apply lookup_insert_eq | exact Hk |].
      fold l4 in Ha4, Hd4. split.
      * unfold AssetLoader.loadVideoTexture. rewrite Ha4. reflexivity.
      * rewrite Hd4. change (AssetLoader.decodesOf name l3)
          with (AssetLoader.decodesOf name l2).
        rewrite Hd2. subst l1. unfold AssetLoader.decodesOf. cbn.
        rewrite List.filter_app. cbn.
        rewrite bool_decide_eq_true_2 by reflexivity. reflexivity.
Qed.

Lemma loadVideoTexture_idempotent_witness :
  let url := "/videos/rickroll.mp4"%string in
  let name := "rickroll"%string in
  let a := AssetLoader.mkAsset 1 2 in
  exists p l1,
    AssetLoader.loadVideoTexture url name AssetLoader.empty
    = (l1, AssetLoader.Awaiting p)
    /\ AssetLoader.loadVideoTexture url name l1 = (l1, AssetLoader.Adopted p)
    /\ exists l3,
         AssetLoader.resume name p
           (AssetLoader.settle p (AssetLoader.Fulfilled a) l1)
         = Some (l3, Normal a)
         /\ AssetLoader.loadVideoTexture url name l3
            = (l3, AssetLoader.Returned a)
         /\ AssetLoader.decodesOf name l3 = [(url, name)].
Proof.
  intros url name a.
  destruct (loadVideoTexture_idempotent AssetLoader.empty url name
              consistent_empty eq_refl eq_refl)
    as (p & l1 & Hcall & Hdec & Hrest).
  exists p, l1. split; [exact Hcall|].
  split; [exact (proj1 (Hrest [] (Forall_nil_2 _)) url)|].
  destruct (Hrest [AssetLoader.Settle p (AssetLoader.Fulfilled a)])
    as (_ & _ & Hres).
  { repeat constructor. }
  destruct (Hres a) as (l3 & Hresume & _ & Hlater).
  { injection Hcall as <- <-. reflexivity. }
  exists l3. split; [exact Hresume|].
  exact (Hlater [] url (Forall_nil_2 _)).
Defined.

(** Two overlapping requests and a later one, run on a fresh loader: one
    load is started, and the cache ends up holding the asset. *)
Example overlapping_requests :
  let url := "/videos/rickroll.mp4"%string in
  let name := "rickroll"%string in
  let a := AssetLoader.mkAsset 1 2 in
  let l := AssetLoader.exec AssetLoader.empty
             [AssetLoader.Call url name; AssetLoader.Call url name;
              AssetLoader.Settle 0%nat (AssetLoader.Fulfilled a);
              AssetLoader.Call url name; AssetLoader.Resume name 0%nat;
              AssetLoader.Call url name] in
  AssetLoader.decodes l = [(url, name)]
  /\ AssetLoader.loadedAssets l !! name = Some a
  /\ AssetLoader.loadingPromises l !! name = None
  /\ AssetLoader.suspended l = [].
Proof. vm_compute. repeat split. Qed.

(** * Further properties of the detectors *)

Import ComponentSpec.

Section ComponentFacts.
Import ComponentSpec.

Lemma neighbors_sym p n w : n ∈ neighbors p w -> p ∈ neighbors n w.
Proof.
  unfold neighbors. rewrite !elem_of_cons, !elem_of_nil.
  intros [->|[->|[->|[->|[]]]]].
  - right. left. lia.
  - left. lia.
  - do 3 right. left. lia.
  - do 2 right. left. lia.
Qed.

Lemma aset_mark_inv a i j :
  truthy (aget (aset a i 1) j) = true -> j = i \/ truthy (aget a j) = true.
Proof.
  intros H. destruct (decide (i = j)) as [->|Hne]; [left; reflexivity|].
  right. rewrite aget_aset_other in H by exact Hne. exact H.
Qed.

Lemma pushNeighbors_elem w h redMap visited ns :
  forall queue x,
    x ∈ pushNeighbors w h redMap visited ns queue
    <-> x ∈ queue
        \/ (x ∈ ns /\ goodPixel w h redMap x
            /\ truthy (aget visited x) = false).
Proof.
  unfold pushNeighbors.
  induction ns as [|n ns IH]; intros queue x; cbn [fold_left].
  - split; [auto|]. intros [H|[H _]]; [exact H | inversion H].
  - rewrite IH. rewrite elem_of_cons. unfold goodPixel.
    destruct (Z.leb_spec 0 n) as [H0|H0]; cbn [andb].
    2:{ split; [tauto|]. intros [H|[[->|H] H']]; [tauto | lia | tauto]. }
    destruct (Z.ltb_spec n (w * h)) as [H1|H1]; cbn [andb].
    2:{ split; [tauto|]. intros [H|[[->|H] H']]; [tauto | lia | tauto]. }
    destruct (truthy (aget redMap n)) eqn:Hr; cbn [andb].
    2:{ split; [tauto|].
        intros [H|[[->|H] H']]; [tauto | destruct H' as [[_ H'] _]; congruence
                                | tauto]. }
    destruct (truthy (aget visited n)) eqn:Hv; cbn [negb].
    { split; [tauto|].
      intros [H|[[->|H] H']]; [tauto | destruct H' as [_ H']; congruence
                              | tauto]. }
    rewrite elem_of_app, list_elem_of_singleton. split.
    + intros [[H| ->]|H]; [tauto | | tauto].
      right. split; [left; reflexivity|]. split; [split; [lia|]|]; assumption.
    + intros [H|[[->|H] H']]; [tauto | left; right; reflexivity | tauto].
Qed.

Lemma fillStep_invariant w h redMap visited0 idx queue visited pxs sx sy :
  w * h = Z.of_nat (length visited0) ->
  fillInvariant w h redMap visited0 (mkFillState (idx :: queue) visited pxs sx sy) ->
  fillInvariant w h redMap visited0
    (fillStep w h redMap idx (mkFillState queue visited pxs sx sy)).
Proof.
  intros Hwh (Hlen & Hq & Hpx & Hnd & Hmono).
  cbn [fs_queue fs_visited fs_pixels] in *.
  apply Forall_cons in Hq as [Hidx Hq].
  unfold fillStep. cbn [fs_queue fs_visited fs_pixels fs_sumX fs_sumY].
  destruct (truthy (aget visited idx)) eqn:Hv.
  - split; [exact Hlen | split; [exact Hq | split; [exact Hpx | split; assumption]]].
  - assert (Hin : 0 <= idx < Z.of_nat (length visited))
      by (destruct Hidx; lia).
    assert (Hnew : truthy (aget visited0 idx) = false).
    { destruct (truthy (aget visited0 idx)) eqn:H0; [|reflexivity].
      apply Hmono in H0. congruence. }
    split; [|split; [|split; [|split]]]; cbn [fs_queue fs_visited fs_pixels].
    + rewrite length_aset. exact Hlen.
    + apply pushNeighbors_good, Hq.
    + apply Forall_app. split.
      * eapply Forall_impl; [exact Hpx|].
        intros p (Hg & Hp & Hp0).
        split; [exact Hg | split; [|exact Hp0]].
        apply aset_keeps_marks; assumption.
      * constructor; [|constructor].
        split; [exact Hidx | split; [|exact Hnew]].
        rewrite aget_aset_same by exact Hin. reflexivity.
    + apply NoDup_app. split; [exact Hnd | split; [|apply NoDup_singleton]].
      intros p Hp Hp'. apply list_elem_of_singleton in Hp'. subst p.
      rewrite Forall_forall in Hpx. destruct (Hpx idx Hp) as (_ & Hvis & _).
      congruence.
    + intros j Hj. apply aset_keeps_marks; [exact Hin | apply Hmono, Hj].
Qed.

Lemma fillStep_progress w h redMap visited0 start idx queue visited pxs sx sy :
  w * h = Z.of_nat (length visited0) ->
  truthy (aget visited0 start) = false ->
  fillInvariant w h redMap visited0 (mkFillState (idx :: queue) visited pxs sx sy) ->
  fillProgress w h redMap visited0 start
    (mkFillState (idx :: queue) visited pxs sx sy) ->
  fillProgress w h redMap visited0 start
    (fillStep w h redMap idx (mkFillState queue visited pxs sx sy)).
Proof.
  intros Hwh Hstart (Hlen & Hgq & _) (Hq & Hpx & Hnb & Hmk & Hhd).
  cbn [fs_queue fs_visited fs_pixels] in *.
  apply Forall_cons in Hq as [Hidx Hq].
  apply Forall_cons in Hgq as [Hgood _].
  unfold fillStep. cbn [fs_queue fs_visited fs_pixels fs_sumX fs_sumY].
  destruct (truthy (aget visited idx)) eqn:Hv.
  - split; [exact Hq | split; [exact Hpx | split; [|split; [exact Hmk|]]]];
      cbn [fs_queue fs_visited fs_pixels].
    + intros p n Hp Hn Hg. destruct (Hnb p n Hp Hn Hg) as [H|H]; [auto|].
      apply elem_of_cons in H as [->|H]; auto.
    + destruct Hhd as [(_ & Hqs & Hvs)|Hhd]; [|right; exact Hhd].
      injection Hqs as -> _. subst visited. congruence.
  - assert (Hin : 0 <= idx < Z.of_nat (length visited))
      by (destruct Hgood; lia).
    split; [|split; [|split; [|split]]]; cbn [fs_queue fs_visited fs_pixels].
    + apply Forall_forall. intros x Hx.
      apply pushNeighbors_elem in Hx as [Hx|(Hx & Hg & _)].
      * rewrite Forall_forall in Hq. apply Hq, Hx.
      * eapply linked_step; eassumption.
    + apply Forall_app. split; [exact Hpx|]. constructor; [exact Hidx|constructor].
    + intros p n Hp Hn Hg. apply elem_of_app in Hp as [Hp|Hp].
      * destruct (Hnb p n Hp Hn Hg) as [H|H].
        -- left. apply aset_keeps_marks; assumption.
        -- apply elem_of_cons in H as [->|H].
           ++ left. rewrite aget_aset_same by exact Hin. reflexivity.
           ++ right. apply pushNeighbors_elem. left. exact H.
      * apply list_elem_of_singleton in Hp. subst p.
        destruct (truthy (aget (aset visited idx 1) n)) eqn:Hvn; [auto|].
        right. apply pushNeighbors_elem. right. auto.
    + intros j Hj. apply aset_mark_inv in Hj as [->|Hj].
      * right. apply elem_of_app. right. apply list_elem_of_singleton. reflexivity.
      * destruct (Hmk j Hj) as [H|H]; [auto|].
        right. apply elem_of_app. left. exact H.
    + right. destruct Hhd as [(-> & Hqs & _)|[rest ->]].
      * injection Hqs as -> _. exists []. reflexivity.
      * eexists. reflexivity.
Qed.

Lemma fillLoop_progress fuel w h redMap visited0 start :
  w * h = Z.of_nat (length visited0) ->
  truthy (aget visited0 start) = false ->
  forall st st',
    fillInvariant w h redMap visited0 st ->
    fillProgress w h redMap visited0 start st ->
    fillLoop fuel w h redMap st = Some st' ->
    fillProgress w h redMap visited0 start st'.
Proof.
  intros Hwh Hstart. induction fuel as [|fuel IH];
    intros st st' Hinv Hprog Hrun; [discriminate|].
  destruct st as [queue visited pxs sx sy]. cbn [fillLoop fs_queue] in Hrun.
  destruct queue as [|idx queue]; [injection Hrun as <-; exact Hprog|].
  cbn [fs_visited fs_pixels fs_sumX fs_sumY] in Hrun.
  eapply IH; [| |exact Hrun].
  - apply fillStep_invariant; assumption.
  - apply fillStep_progress; assumption.
Qed.

(** One flood fill from an unmarked good pixel, with closed marks on
    entry, yields a component and leaves the marks closed. *)
Lemma floodFill_component fuel idx w h redMap visited cluster visited' :
  w * h = Z.of_nat (length visited) ->
  goodPixel w h redMap idx ->
  truthy (aget visited idx) = false ->
  closedMarks w h redMap visited ->
  floodFill fuel idx w h redMap visited = Some (cluster, visited') ->
  componentOf w h redMap cluster
  /\ closedMarks w h redMap visited'
  /\ (forall j, truthy (aget visited' j) = true ->
                truthy (aget visited j) = true \/ j ∈ pixels cluster)
  /\ idx ∈ pixels cluster.
Proof.
  intros Hwh Hidx Hun Hclosed Hfill.
  pose proof Hfill as Hcol.
  apply floodFill_collects in Hcol as (_ & Hpx & _ & Hmono);
    [|exact Hwh | exact Hidx].
  unfold floodFill in Hfill.
  destruct (fillLoop _ _ _ _ _) as [st'|] eqn:Hrun; [|discriminate].
  injection Hfill as <- <-. cbn [pixels] in *.
  assert (Hinv0 : fillInvariant w h redMap visited
                    (mkFillState [idx] visited [] 0 0)).
  { split; [reflexivity | split; [|split; [|split]]];
      cbn [fs_queue fs_visited fs_pixels];
      [constructor; [exact Hidx | constructor] | constructor
      | apply NoDup_nil_2 | auto]. }
  assert (Hprog0 : fillProgress w h redMap visited idx
                     (mkFillState [idx] visited [] 0 0)).
  { split; [|split; [|split; [|split]]]; cbn [fs_queue fs_visited fs_pixels].
    - constructor; [apply linked_start, Hidx | constructor].
    - constructor.
    - intros p n Hp. inversion Hp.
    - auto.
    - left. auto. }
  pose proof (fillLoop_collects fuel w h redMap visited Hwh _ _ Hinv0 Hrun)
    as [_ Hempty].
  pose proof (fillLoop_progress fuel w h redMap visited idx Hwh Hun _ _
                Hinv0 Hprog0 Hrun) as (_ & Hlk & Hnb & Hmk & Hhd).
  rewrite Hempty in Hnb, Hhd.
  assert (Hnb' : forall p n, p ∈ fs_pixels st' -> n ∈ neighbors p w ->
                   goodPixel w h redMap n ->
                   truthy (aget (fs_visited st') n) = true).
  { intros p n Hp Hn Hg. destruct (Hnb p n Hp Hn Hg) as [H|H]; [exact H|].
    inversion H. }
  destruct Hhd as [(_ & Hq & _)|[rest Hrest]]; [discriminate|].
  split; [|split; [|split; [exact Hmk|]]].
  3:{ rewrite Hrest. apply elem_of_cons. left. reflexivity. }
  - exists idx, rest. split; [exact Hrest|]. split.
    + rewrite Forall_forall in Hlk. exact Hlk.
    + intros p n Hp Hn Hg.
      destruct (Hmk n (Hnb' p n Hp Hn Hg)) as [Hold|Hin]; [|exact Hin].
      exfalso.
      rewrite Forall_forall in Hpx. destruct (Hpx p Hp) as (Hgp & _ & Hp0).
      pose proof (Hclosed n p Hold (neighbors_sym _ _ _ Hn) Hgp). congruence.
  - intros p n Hp Hn Hg. destruct (Hmk p Hp) as [Hold|Hin].
    + apply Hmono. eapply Hclosed; eassumption.
    + eapply Hnb'; eassumption.
Qed.

Lemma labelLoop_components idxs w h redMap :
  forall visited clusters out,
    w * h = Z.of_nat (length visited) ->
    Forall (fun i => 0 <= i < w * h) idxs ->
    closedMarks w h redMap visited ->
    Forall (componentOf w h redMap) clusters ->
    labelLoop idxs w h redMap visited clusters = Some out ->
    Forall (componentOf w h redMap) out.
Proof.
  induction idxs as [|idx idxs IH];
    intros visited clusters out Hwh Hi Hcl Hcs Hrun; cbn [labelLoop] in Hrun.
  - injection Hrun as <-. exact Hcs.
  - apply Forall_cons in Hi as [Hidx Hi].
    destruct (truthy (aget redMap idx)) eqn:Hred; cbn [andb] in Hrun;
      [|eapply IH; eassumption].
    destruct (truthy (aget visited idx)) eqn:Hv; cbn [negb] in Hrun;
      [eapply IH; eassumption|].
    destruct (floodFill _ _ _ _ _ _) as [[cluster visited']|] eqn:Hfill;
      [|discriminate].
    pose proof Hfill as Hcol.
    apply floodFill_collects in Hcol as (Hlen & _); [|exact Hwh | split; assumption].
    apply floodFill_component in Hfill as (Hc & Hcl' & _ & _);
      [|exact Hwh | split; assumption | exact Hv | exact Hcl].
    eapply IH; [| exact Hi | exact Hcl' | | exact Hrun]; [congruence|].
    destruct (20 <? length (pixels cluster))%nat; [|exact Hcs].
    apply Forall_app. split; [exact Hcs | constructor; [exact Hc | constructor]].
Qed.

Lemma markerColored_goodPixel img p :
  markerColored img p ->
  goodPixel (Z.of_nat (width img)) (Z.of_nat (height img))
    (fillRedMap (data img) 0 (replicate (width img * height img) 0)) p.
Proof.
  intros [Hp Hred]. split; [exact Hp|].
  unfold aget. destruct (Z.ltb_spec p 0) as [?|_]; [lia|].
  rewrite redMap_spec by lia. rewrite Hred. reflexivity.
Qed.

Lemma linked_indexLinked img s p :
  linked (Z.of_nat (width img)) (Z.of_nat (height img))
    (fillRedMap (data img) 0 (replicate (width img * height img) 0)) s p
  <-> indexLinked img s p.
Proof.
  split.
  - induction 1 as [Hs|q n _ IH Hn Hg].
    + apply indexLinked_start, goodPixel_markerColored, Hs.
    + eapply indexLinked_step; [exact IH | exact Hn |].
      apply goodPixel_markerColored, Hg.
  - induction 1 as [Hs|q n _ IH Hn Hg].
    + apply linked_start, markerColored_goodPixel, Hs.
    + eapply linked_step; [exact IH | exact Hn |].
      apply markerColored_goodPixel, Hg.
Qed.

End ComponentFacts.

(** X2. Every cluster behind a detection is exactly the set of
    marker-coloured pixels joined to its first pixel by a chain of
    neighbour indices (idx-1, idx+1, idx-width, idx+width). *)
Theorem clusters_are_index_components img maxMarkers :
  exists kept,
    keptClusters img maxMarkers = Some kept
    /\ Forall (fun c => exists s rest,
                  pixels c = s :: rest
                  /\ forall p, p ∈ pixels c <-> ComponentSpec.indexLinked img s p)
         kept.
Proof.
  destruct (findClusters_total img) as (clusters & Hfind & _).
  unfold keptClusters. rewrite Hfind. eexists. split; [reflexivity|].
  unfold findClusters in Hfind.
  apply labelLoop_components in Hfind.
  - apply Forall_take. rewrite sortClusters_perm.
    eapply Forall_impl; [exact Hfind|].
    intros c (s & rest & Hpx & Hlk & Hnb). exists s, rest.
    split; [exact Hpx|]. intros p. rewrite <- linked_indexLinked. split.
    + apply Hlk.
    + induction 1 as [_|q n _ IH Hn Hg].
      * rewrite Hpx. apply elem_of_cons. left. reflexivity.
      * eapply Hnb; eassumption.
  - rewrite length_replicate. lia.
  - apply Forall_seqZ. intros j Hj. lia.
  - intros p n Hp. rewrite aget_replicate_zero in Hp. discriminate.
  - constructor.
Qed.

Section WholeFrameFacts.
Import ComponentSpec.

Lemma labelLoop_marked idxs w h redMap visited clusters :
  Forall (fun i => truthy (aget visited i) = true) idxs ->
  labelLoop idxs w h redMap visited clusters = Some clusters.
Proof.
  induction 1 as [|idx idxs Hidx _ IH]; cbn [labelLoop]; [reflexivity|].
  rewrite Hidx, andb_false_r. exact IH.
Qed.

Lemma filter_none {A} (f : A -> bool) (l : list A) :
  (forall x, In x l -> f x = false) -> List.filter f l = [].
Proof.
  induction l as [|x l IH]; intros H; cbn; [reflexivity|].
  rewrite (H x (or_introl eq_refl)). apply IH. intros y Hy. apply H. right. exact Hy.
Qed.

(** The ratio scan counts the groups that pass the colour test. *)
Lemma countRed_counts full d :
  forall j m c,
    (forall k, redAt d k = redAt full (j + k)) ->
    (length d <= 4 * m)%nat ->
    countRed d c
    = c + Z.of_nat (length (List.filter (redAt full) (seq j m))).
Proof.
  induction d as [|r|r g|r g b|r g b a l IH] using list_ind4;
    intros j m c Hsame Hlen.
  - cbn [countRed]. rewrite filter_none; [cbn; lia|].
    intros x Hx. apply in_seq in Hx.
    replace x with (j + (x - j))%nat by lia. rewrite <- Hsame.
    apply redAt_outside. cbn. lia.
  - destruct m as [|m]; [cbn in Hlen; lia|].
    cbn [countRed seq List.filter]. rewrite <- redAt_head.
    replace j with (j + 0)%nat at 1 by lia. rewrite <- Hsame.
    rewrite (filter_none _ (seq (S j) m)).
    + destruct (redAt [r] 0); cbn; lia.
    + intros x Hx. apply in_seq in Hx.
      replace x with (j + S (x - S j))%nat by lia. rewrite <- Hsame.
      apply redAt_short. cbn. lia.
  - destruct m as [|m]; [cbn in Hlen; lia|].
    cbn [countRed seq List.filter]. rewrite <- redAt_head.
    replace j with (j + 0)%nat at 1 by lia. rewrite <- Hsame.
    rewrite (filter_none _ (seq (S j) m)).
    + destruct (redAt [r; g] 0); cbn; lia.
    + intros x Hx. apply in_seq in Hx.
      replace x with (j + S (x - S j))%nat by lia. rewrite <- Hsame.
      apply redAt_short. cbn. lia.
  - destruct m as [|m]; [cbn in Hlen; lia|].
    cbn [countRed seq List.filter]. rewrite <- redAt_head.
    replace j with (j + 0)%nat at 1 by lia. rewrite <- Hsame.
    rewrite (filter_none _ (seq (S j) m)).
    + destruct (redAt [r; g; b] 0); cbn; lia.
    + intros x Hx. apply in_seq in Hx.
      replace x with (j + S (x - S j))%nat by lia. rewrite <- Hsame.
      apply redAt_short. cbn. lia.
  - destruct m as [|m]; [cbn in Hlen; lia|].
    cbn [countRed seq List.filter]. rewrite <- redAt_head.
    replace j with (j + 0)%nat at 1 by lia. rewrite <- Hsame.
    rewrite (IH (S j) m).
    + destruct (redAt (r :: g :: b :: a :: l) 0); cbn [length]; lia.
    + intros k. rewrite <- redAt_group with (r := r) (g := g) (b := b) (a := a).
      rewrite Hsame. f_equal. lia.
    + cbn in Hlen. lia.
Qed.

End WholeFrameFacts.

(** X4. On a well-formed frame the ratio variant reports [found] exactly
    when strictly more than one pixel in a hundred is marker-coloured. *)
Theorem ratio_found_iff_over_one_percent img :
  well_formed img ->
  found (detectRatioFrame img) = true
  <-> (width img * height img < 100 * ComponentSpec.redPixels img)%nat.
Proof.
  intros Hwf. unfold detectRatioFrame, ComponentSpec.redPixels.
  rewrite (countRed_counts (data img) (data img) 0 (width img * height img) 0);
    [|reflexivity | rewrite Hwf; lia].
  set (R := length _). set (n := (width img * height img)%nat).
  rewrite Z.add_0_l, <- Nat2Z.inj_mul. fold n.
  unfold jsdiv.
  destruct (Z.eqb_spec (Z.of_nat n) 0) as [Hn|Hn].
  - assert (n = 0%nat) by lia.
    assert (HR : R = 0%nat).
    { subst R. fold n. rewrite H. reflexivity. }
    rewrite HR. cbn. split; [discriminate | lia].
  - replace (Z.sgn (Z.of_nat n)) with 1 by lia.
    rewrite Z.mul_1_r. unfold jsgt, Qle_bool. cbn [Qnum Qden].
    rewrite Z.abs_eq, Z2Pos.id by lia.
    destruct (Z.leb_spec (Z.of_nat R * 100) (1 * Z.of_nat n));
      cbn; split; intros; try discriminate; try reflexivity; lia.
Qed.

Lemma ratio_found_iff_over_one_percent_witness :
  found (detectRatioFrame (paint 5 5 (fun px py => (px + py =? 0)%nat))) = true
  <-> (5 * 5 < 100 * ComponentSpec.redPixels
                     (paint 5 5 (fun px py => (px + py =? 0)%nat)))%nat.
Proof.
  apply (ratio_found_iff_over_one_percent
           (paint 5 5 (fun px py => (px + py =? 0)%nat))).
  reflexivity.
Defined.

Section AllRed.
Import ComponentSpec.

Lemma all_red_single_cluster img :
  (forall k, (k < width img * height img)%nat -> redAt (data img) k = true) ->
  (0 < width img * height img)%nat ->
  exists c,
    findClusters img
    = Some (if (20 <? width img * height img)%nat then [c] else [])
    /\ length (pixels c) = (width img * height img)%nat.
Proof.
  intros Hred Hpos. unfold findClusters.
  set (w := Z.of_nat (width img)). set (h := Z.of_nat (height img)).
  set (n := (width img * height img)%nat) in *.
  set (redMap := fillRedMap (data img) 0 (replicate n 0)).
  assert (Hn : w * h = Z.of_nat n) by (subst w h n; lia).
  assert (Hwh : w * h = Z.of_nat (length (replicate n 0)))
    by (rewrite length_replicate; exact Hn).
  assert (Hgood : forall p, 0 <= p < w * h -> goodPixel w h redMap p).
  { intros p Hp. apply markerColored_goodPixel. split; [exact Hp|].
    apply Hred. lia. }
  assert (H0 : 0 <= 0 < w * h) by lia.
  destruct (floodFill_total 0 w h redMap (replicate n 0) Hwh H0)
    as (c & visited' & Hfill & Hlen).
  pose proof (floodFill_collects _ _ _ _ _ _ _ _ Hwh (Hgood 0 H0) Hfill)
    as (_ & Hpx & Hnd & _).
  pose proof Hfill as Hcomp.
  apply floodFill_component in Hcomp
    as ((s & rest & _ & _ & Hnb) & _ & _ & Hs);
    [|exact Hwh | exact (Hgood 0 H0) | apply aget_replicate_zero |].
  2:{ intros p q Hp. rewrite aget_replicate_zero in Hp. discriminate. }
  assert (Hall : forall k : nat, (k < n)%nat -> Z.of_nat k ∈ pixels c).
  { induction k as [|k IH]; intros Hk; [exact Hs|].
    apply (Hnb (Z.of_nat k)); [apply IH; lia | | apply Hgood; lia].
    unfold neighbors. apply elem_of_cons. right. apply elem_of_cons. left. lia. }
  rewrite Forall_forall in Hpx.
  assert (Hsize : length (pixels c) = n).
  { apply Nat.le_antisymm.
    - rewrite <- (Nat2Z.id n), <- (length_seqZ 0 (Z.of_nat n)).
      apply submseteq_length, NoDup_submseteq; [exact Hnd|].
      intros p Hp. destruct (Hpx p Hp) as ([Hr _] & _).
      apply elem_of_seqZ. lia.
    - rewrite <- (Nat2Z.id n) at 1. rewrite <- (length_seqZ 0 (Z.of_nat n)).
      apply submseteq_length, NoDup_submseteq; [apply NoDup_seqZ|].
      intros p Hp. apply elem_of_seqZ in Hp.
      rewrite <- (Z2Nat.id p) by lia. apply Hall. lia. }
  exists c. split; [|exact Hsize].
  replace (w * h) with (Z.succ (Z.pred (w * h))) by lia.
  rewrite seqZ_cons by lia.
  cbn [labelLoop].
  destruct (Hgood 0 H0) as [_ Hr0]. rewrite Hr0, aget_replicate_zero.
  cbn [andb negb]. rewrite Hfill, Hsize.
  rewrite labelLoop_marked; [destruct (20 <? n)%nat; reflexivity|].
  apply Forall_seqZ. intros j Hj.
  assert (Hjn : (Z.to_nat j < n)%nat) by lia.
  apply Hall in Hjn. rewrite Z2Nat.id in Hjn by lia.
  destruct (Hpx j Hjn) as (_ & Hv & _). exact Hv.
Qed.

End AllRed.

(** X3. On a frame all of whose pixels are marker-coloured, [detect]
    returns exactly one detection, whose pixel count is width x height,
    provided that is more than 20; with 20 pixels or fewer it returns
    nothing. *)
Theorem all_red_frame_one_detection img :
  (forall k, (k < width img * height img)%nat -> redAt (data img) k = true) ->
  (0 < width img * height img)%nat ->
  if (20 <? width img * height img)%nat
  then exists d,
      findRedMarkers img 4 = Some [d]
      /\ pixelCount d = (width img * height img)%nat
      /\ size d = (width img * height img)%nat
  else findRedMarkers img 4 = Some [].
Proof.
  intros Hred Hpos.
  destruct (all_red_single_cluster img Hred Hpos) as (c & Hfind & Hsize).
  unfold findRedMarkers, keptClusters. rewrite Hfind.
  destruct (20 <? width img * height img)%nat; [|reflexivity].
  exists (toDetection c). split; [reflexivity|]. split; exact Hsize.
Qed.

Lemma all_red_frame_one_detection_witness :
  exists d,
    findRedMarkers (paint 5 5 (fun _ _ => true)) 4 = Some [d]
    /\ pixelCount d = 25%nat /\ size d = 25%nat.
Proof.
  apply (all_red_frame_one_detection (paint 5 5 (fun _ _ => true))).
  - intros k Hk. change (width _ * height _)%nat with 25%nat in Hk.
    do 25 (destruct k as [|k]; [reflexivity|]). lia.
  - cbn. lia.
Defined.

Section CentroidFacts.
Import CentroidSpec.

Lemma sumZ_app l1 l2 : sumZ (l1 ++ l2) = sumZ l1 + sumZ l2.
Proof. unfold sumZ. induction l1 as [|a l1 IH]; cbn; [reflexivity | lia]. Qed.

Lemma sumZ_bounds lo hi l :
  Forall (fun t => lo <= t <= hi) l ->
  lo * Z.of_nat (length l) <= sumZ l <= hi * Z.of_nat (length l).
Proof.
  induction 1 as [|t l Ht _ IH]; [cbn; lia|].
  change (sumZ (t :: l)) with (t + sumZ l).
  rewrite length_cons, Nat2Z.inj_succ. lia.
Qed.

Lemma fillLoop_sums fuel w h redMap : forall st st',
  fs_sumX st = sumZ ((fun p => p mod w) <$> fs_pixels st) ->
  fs_sumY st = sumZ ((fun p => p / w) <$> fs_pixels st) ->
  fillLoop fuel w h redMap st = Some st' ->
  fs_sumX st' = sumZ ((fun p => p mod w) <$> fs_pixels st')
  /\ fs_sumY st' = sumZ ((fun p => p / w) <$> fs_pixels st').
Proof.
  induction fuel as [|fuel IH]; intros st st' Hx Hy Hrun; [discriminate|].
  destruct st as [queue visited pxs sx sy]. cbn [fillLoop fs_queue] in Hrun.
  fs_simpl.
  destruct queue as [|idx queue].
  { injection Hrun as <-. split; assumption. }
  apply IH in Hrun; [exact Hrun| |]; unfold fillStep; fs_simpl;
    destruct (truthy (aget visited idx)); fs_simpl; try assumption;
    rewrite fmap_app, sumZ_app; cbn; lia.
Qed.

Lemma floodFill_centroid fuel idx w h redMap visited cluster visited' :
  floodFill fuel idx w h redMap visited = Some (cluster, visited') ->
  centroidOf w cluster.
Proof.
  unfold floodFill.
  destruct (fillLoop _ _ _ _ _) as [st'|] eqn:Hrun; [|discriminate].
  intros H. injection H as <- _.
  apply fillLoop_sums in Hrun as [Hx Hy]; [|reflexivity|reflexivity].
  unfold centroidOf. cbn [pixels centerX centerY]. rewrite Hx, Hy.
  split; reflexivity.
Qed.

Lemma labelLoop_centroids idxs w h redMap :
  forall visited (clusters out : list Cluster),
    Forall (centroidOf w) clusters ->
    labelLoop idxs w h redMap visited clusters = Some out ->
    Forall (centroidOf w) out.
Proof.
  induction idxs as [|idx idxs IH]; intros visited clusters out Hc Hrun;
    cbn [labelLoop] in Hrun.
  - injection Hrun as <-. exact Hc.
  - destruct (truthy (aget redMap idx) && negb (truthy (aget visited idx)));
      [|eapply IH; eassumption].
    destruct (floodFill _ _ _ _ _ _) as [[cluster visited']|] eqn:Hfill;
      [|discriminate].
    apply floodFill_centroid in Hfill.
    eapply IH; [|exact Hrun].
    destruct (20 <? length (pixels cluster))%nat; [|exact Hc].
    apply Forall_app. split; [exact Hc | constructor; [exact Hfill | constructor]].
Qed.

Lemma mean_within (s n lo hi : Z) :
  0 < n -> lo * n <= s <= hi * n -> within (jsdiv s n) lo hi.
Proof.
  intros Hn Hs. unfold jsdiv.
  destruct (Z.eqb_spec n 0) as [?|_]; [lia|].
  unfold within, Qle, inject_Z. cbn [Qnum Qden].
  rewrite Z.sgn_pos by exact Hn.
  rewrite Z2Pos.id by lia. rewrite Z.abs_eq by lia. lia.
Qed.

End CentroidFacts.

(** X21. The position reported for a marker is the centre of mass of its
    cluster: [x] is the mean column and [y] the mean row of the
    cluster's pixels, both finite, and the point lies inside the frame. *)
Theorem detections_are_centroids_inside_frame img maxMarkers :
  exists kept,
    keptClusters img maxMarkers = Some kept
    /\ findRedMarkers img maxMarkers = Some (toDetection <$> kept)
    /\ Forall (fun c =>
         x (toDetection c) = centerX c /\ y (toDetection c) = centerY c
         /\ CentroidSpec.centroidOf (Z.of_nat (width img)) c
         /\ CentroidSpec.within (centerX c) 0 (Z.of_nat (width img) - 1)
         /\ CentroidSpec.within (centerY c) 0 (Z.of_nat (height img) - 1))
       kept.
Proof.
  destruct (findClusters_total img) as (clusters & Hfind & Hbig).
  unfold findRedMarkers, keptClusters. rewrite Hfind.
  eexists. split; [reflexivity|]. split; [reflexivity|].
  set (w := Z.of_nat (width img)). set (h := Z.of_nat (height img)).
  assert (Hcen : Forall (CentroidSpec.centroidOf w) clusters).
  { unfold findClusters in Hfind.
    eapply labelLoop_centroids; [|exact Hfind]. constructor. }
  assert (Hgood : Forall (goodPixel w h
                    (fillRedMap (data img) 0
                       (replicate (width img * height img) 0)))
                    (mjoin (pixels <$> clusters))).
  { unfold findClusters in Hfind.
    apply labelLoop_collects in Hfind as [Hg _]; [exact Hg| | | |].
    - rewrite length_replicate. subst w h. lia.
    - apply Forall_forall. intros i Hi. apply elem_of_seqZ in Hi. lia.
    - constructor.
    - constructor. }
  apply Forall_take.
  rewrite sortClusters_perm.
  apply Forall_forall. intros c Hc.
  rewrite Forall_forall in Hcen. rewrite Forall_forall in Hbig.
  rewrite Forall_forall in Hgood.
  specialize (Hcen c Hc). specialize (Hbig c Hc). unfold bigEnough in Hbig.
  split; [reflexivity|]. split; [reflexivity|]. split; [exact Hcen|].
  assert (Hpx : forall p, p ∈ pixels c -> 0 <= p < w * h).
  { intros p Hp. apply Hgood.
    apply list_elem_of_join. exists (pixels c). split; [exact Hp|].
    apply list_elem_of_fmap. exists c. split; [reflexivity | exact Hc]. }
  destruct (pixels c) as [|p0 ps] eqn:Hpc; [cbn in Hbig; lia|].
  assert (Hw : 0 < w /\ 0 < h).
  { specialize (Hpx p0 (list_elem_of_here _ _)). subst w h. nia. }
  destruct Hcen as [Hx Hy]. rewrite Hx, Hy, Hpc.
  split; apply mean_within; try (rewrite length_cons; lia).
  - rewrite <- (length_fmap (fun p => p mod w)) at 1 2.
    apply sumZ_bounds. apply Forall_fmap, Forall_forall. intros p Hp. cbn.
    pose proof (Z.mod_pos_bound p w (proj1 Hw)). lia.
  - rewrite <- (length_fmap (fun p => p / w)) at 1 2.
    apply sumZ_bounds. apply Forall_fmap, Forall_forall. intros p Hp. cbn.
    specialize (Hpx p Hp).
    assert (0 <= p / w) by (apply Z.div_pos; lia).
    assert (p / w < h) by (apply Z.div_lt_upper_bound; lia).
    lia.
Qed.

(** * Further properties of the applications *)

Section PlaybackFacts.
Import TickSpec.

Lemma ARApp_tick_console env a :
  (ARApp.errorLogged a = true ->
   consoleErrors (snd (ARApp.tick env a)) = []
   /\ ARApp.errorLogged (fst (ARApp.tick env a)) = true)
  /\ (ARApp.errorLogged a = false ->
      (consoleErrors (snd (ARApp.tick env a)) = []
       /\ ARApp.errorLogged (fst (ARApp.tick env a)) = false)
      \/ (exists msg,
            consoleErrors (snd (ARApp.tick env a)) = [ConsoleError msg]
            /\ ARApp.errorLogged (fst (ARApp.tick env a)) = true)).
Proof.
  destruct env as [now rs dr pr mn tm ld rd].
  destruct a as [ac ve re mg vm det fc lf [|] ms vs fps].
  all: split; intros Hlog; try discriminate Hlog; clear Hlog.
  all: unfold_arapp; tick_cases.
  all: first [ split; reflexivity
             | left; split; reflexivity
             | right; eexists; split; reflexivity ].
Qed.

End PlaybackFacts.

(** X5. In the AR.js application the video plays exactly while the marker
    is tracked: this holds when the loop starts (the video is loaded
    without autoplay), every tick preserves it, and a tick calls
    [video.play()] once when it finds the marker, [video.pause()] once
    when it loses it, and neither otherwise. *)
Theorem playback_follows_tracking :
  (forall t camera v,
      paused v = true ->
      TickSpec.playsWhileTracking (ARApp.initial t camera (Some v)))
  /\ (forall env a,
        TickSpec.playsWhileTracking a ->
        TickSpec.playsWhileTracking (fst (ARApp.tick env a))
        /\ TickSpec.playbackEvents (snd (ARApp.tick env a))
           = TickSpec.playbackFor (ARApp.isMarkerDetected a)
               (ARApp.isMarkerDetected (fst (ARApp.tick env a)))).
Proof.
  split.
  - intros t camera v Hv. exists (mkMesh false (Some v)), v.
    repeat split. exact Hv.
  - intros env a (m & v & Hm & Hv & Hp).
    destruct env as [now rs dr pr mn tm ld rd].
    destruct a as [ac ve re mg vm det fc lf el ms vs fps].
    cbn in Hm, Hv, Hp. subst vm. destruct m as [vis vid]. cbn in Hv. subst vid.
    destruct v as [pa ct]. cbn in Hp. subst pa.
    unfold TickSpec.playsWhileTracking. destruct det.
    all: unfold_arapp; tick_cases.
    all: split; [do 2 eexists; repeat split; reflexivity | reflexivity].
Qed.

Lemma playback_follows_tracking_witness :
  TickSpec.playsWhileTracking (fst (ARApp.tick markerSeen startState))
  /\ TickSpec.playbackEvents (snd (ARApp.tick markerSeen startState))
     = TickSpec.playbackFor (ARApp.isMarkerDetected startState)
         (ARApp.isMarkerDetected (fst (ARApp.tick markerSeen startState))).
Proof.
  destruct playback_follows_tracking as [Hinit Htick].
  apply Htick. apply (Hinit 0 true sampleVideo). reflexivity.
Defined.

(** X6. The same for the first application: its video plays exactly while
    [isTracking] holds, also across a tick whose pose update throws. *)
Theorem legacy_playback_follows_tracking :
  TickSpec.legacyPlaysWhileTracking Legacy.initial
  /\ (forall env a,
        TickSpec.legacyPlaysWhileTracking a ->
        TickSpec.legacyPlaysWhileTracking (fst (Legacy.tick env a))
        /\ TickSpec.playbackEvents (snd (Legacy.tick env a))
           = TickSpec.playbackFor (Legacy.isTracking a)
               (Legacy.isTracking (fst (Legacy.tick env a)))).
Proof.
  split.
  - eexists. split; reflexivity.
  - intros env a (v & Hv & Hp).
    destruct env as [rdy det rd].
    destruct a as [trk [vis vid] cp vp dbg].
    cbn in Hv, Hp. subst vid. destruct v as [pa ct]. cbn in Hp. subst pa.
    unfold TickSpec.legacyPlaysWhileTracking. destruct trk.
    all: unfold_legacy; tick_cases.
    all: split; [eexists; split; reflexivity | reflexivity].
Qed.

Lemma legacy_playback_follows_tracking_witness :
  let env := Legacy.mkTickEnv true
               (Some (Legacy.mkDetectionResult true None None)) (Normal tt) in
  TickSpec.legacyPlaysWhileTracking (fst (Legacy.tick env Legacy.initial))
  /\ TickSpec.playbackEvents (snd (Legacy.tick env Legacy.initial))
     = TickSpec.playbackFor (Legacy.isTracking Legacy.initial)
         (Legacy.isTracking (fst (Legacy.tick env Legacy.initial))).
Proof.
  intros env. destruct legacy_playback_follows_tracking as [Hinit Htick].
  apply Htick, Hinit.
Defined.


Section RunFacts.
Import TickSpec.

Lemma consoleErrors_app es1 es2 :
  consoleErrors (es1 ++ es2) = consoleErrors es1 ++ consoleErrors es2.
Proof. apply List.filter_app. Qed.

Lemma runEffects_cons {St : Type} (s s' : St) es log :
  runEffects ((s, es, s') :: log) = es ++ runEffects log.
Proof. reflexivity. Qed.

Lemma run_console_logged envs : forall a,
  ARApp.errorLogged a = true ->
  consoleErrors (runEffects (runTicks ARApp.tick a envs)) = [].
Proof.
  induction envs as [|env envs IH]; intros a Hlog; [reflexivity|].
  cbn [runTicks].
  destruct (ARApp_tick_console env a) as [Hyes _].
  destruct (Hyes Hlog) as [Hes Hlog'].
  destruct (ARApp.tick env a) as [a' es]. cbn [fst snd] in Hes, Hlog'.
  rewrite runEffects_cons, consoleErrors_app, Hes. cbn [app].
  apply IH, Hlog'.
Qed.

Lemma run_console_once envs : forall a,
  (length (consoleErrors (runEffects (runTicks ARApp.tick a envs))) <= 1)%nat.
Proof.
  induction envs as [|env envs IH]; intros a; [cbn; lia|].
  cbn [runTicks].
  destruct (ARApp.errorLogged a) eqn:Hlog.
  - pose proof (run_console_logged (env :: envs) a Hlog) as H.
    cbn [runTicks] in H. rewrite H. cbn. lia.
  - destruct (ARApp_tick_console env a) as [_ Hno].
    specialize (Hno Hlog). specialize (IH (fst (ARApp.tick env a))).
    pose proof (run_console_logged envs (fst (ARApp.tick env a))) as Hrest.
    destruct (ARApp.tick env a) as [a' es]. cbn [fst snd] in *.
    rewrite runEffects_cons, consoleErrors_app, length_app.
    destruct Hno as [[Hes _] | (msg & Hes & Hlog')]; rewrite Hes.
    + cbn. exact IH.
    + rewrite (Hrest Hlog'). cbn. lia.
Qed.

Lemma ARApp_tick_setup env a :
  ARApp.arController (fst (ARApp.tick env a)) = ARApp.arController a
  /\ ARApp.videoElement (fst (ARApp.tick env a)) = ARApp.videoElement a
  /\ ARApp.renderer (fst (ARApp.tick env a)) = ARApp.renderer a.
Proof.
  destruct env as [now rs dr pr mn tm ld rd].
  destruct a as [ac ve re mg vm det fc lf el ms vs fps].
  unfold_arapp; tick_cases.
  all: split; [reflexivity | split; reflexivity].
Qed.

Lemma ARApp_tick_stalled env a :
  stalled env a = true ->
  ARApp.isMarkerDetected (fst (ARApp.tick env a)) = ARApp.isMarkerDetected a
  /\ ARApp.markerGroup (fst (ARApp.tick env a)) = ARApp.markerGroup a
  /\ ARApp.videoMesh (fst (ARApp.tick env a)) = ARApp.videoMesh a
  /\ markerEvents (snd (ARApp.tick env a)) = []
  /\ playbackEvents (snd (ARApp.tick env a)) = [].
Proof.
  destruct env as [now rs dr pr mn tm ld rd].
  destruct a as [ac ve re mg vm det fc lf el ms vs fps].
  unfold stalled, ARApp.HAVE_ENOUGH_DATA.
  cbn [ARApp.arController ARApp.videoElement ARApp.readyState].
  intros Hst. apply negb_true_iff in Hst.
  unfold_arapp. unfold ARApp.HAVE_ENOUGH_DATA in *. tick_cases.
  all: try congruence.
  all: do 4 (split; [reflexivity|]); reflexivity.
Qed.

End RunFacts.

(** X8. The AR.js loop writes at most one error to the console over a
    whole run: once [errorLogged] is set it stays set and every later
    error is swallowed silently. An exception of the transform query or
    of the matrix load is never logged, whatever the flag: a tick whose
    drawing, processing, marker count and rendering succeed logs
    nothing. *)
Theorem console_logs_first_error_only :
  (forall a envs,
      (length (TickSpec.consoleErrors
                 (TickSpec.runEffects (runTicks ARApp.tick a envs))) <= 1)%nat)
  /\ (forall env a,
        ARApp.errorLogged a = true ->
        TickSpec.consoleErrors (snd (ARApp.tick env a)) = []
        /\ ARApp.errorLogged (fst (ARApp.tick env a)) = true)
  /\ (forall env a n,
        ARApp.drawing env = Normal tt ->
        ARApp.processing env = Normal tt ->
        ARApp.markerNum env = Normal n ->
        ARApp.rendering env = Normal tt ->
        TickSpec.consoleErrors (snd (ARApp.tick env a)) = []
        /\ ARApp.errorLogged (fst (ARApp.tick env a)) = ARApp.errorLogged a).
Proof.
  split; [|split].
  - intros a envs. apply run_console_once.
  - intros env a Hlog. apply ARApp_tick_console, Hlog.
  - intros [now rs dr pr mn tm ld rd] a n. cbn. intros -> -> -> ->.
    destruct a as [ac ve re mg vm det fc lf el ms vs fps].
    unfold_arapp; tick_cases.
    all: split; reflexivity.
Qed.

Lemma console_logs_first_error_only_witness :
  TickSpec.consoleErrors
    (snd (ARApp.tick (frameWith 1 (Thrown "no transform")) startState)) = []
  /\ ARApp.errorLogged
       (fst (ARApp.tick (frameWith 1 (Thrown "no transform")) startState))
     = ARApp.errorLogged startState.
Proof.
  destruct console_logs_first_error_only as (_ & _ & Hinner).
  apply (Hinner (frameWith 1 (Thrown "no transform")) startState 1);
    reflexivity.
Defined.

(** X9. A tick that cannot process the frame (no controller, no camera
    video, or a video without enough data) leaves the tracking flag, the
    marker group and the video mesh as they were and fires neither a
    marker event nor a playback call: a tracked marker stays tracked while
    the camera stalls. An application started without a camera stream
    therefore never leaves Lost. *)
Theorem stalled_tick_keeps_tracking_state :
  (forall env a,
      TickSpec.stalled env a = true ->
      ARApp.isMarkerDetected (fst (ARApp.tick env a)) = ARApp.isMarkerDetected a
      /\ ARApp.markerGroup (fst (ARApp.tick env a)) = ARApp.markerGroup a
      /\ ARApp.videoMesh (fst (ARApp.tick env a)) = ARApp.videoMesh a
      /\ markerEvents (snd (ARApp.tick env a)) = []
      /\ TickSpec.playbackEvents (snd (ARApp.tick env a)) = [])
  /\ (forall t video envs,
        Forall (fun '(_, es, after) =>
                  ARApp.isMarkerDetected after = false
                  /\ markerEvents es = [])
          (runTicks ARApp.tick (ARApp.initial t false video) envs)).
Proof.
  split; [apply ARApp_tick_stalled|].
  intros t video envs.
  assert (Hgen : forall a,
    ARApp.videoElement a = false -> ARApp.isMarkerDetected a = false ->
    Forall (fun '(_, es, after) =>
              ARApp.isMarkerDetected after = false /\ markerEvents es = [])
      (runTicks ARApp.tick a envs)).
  { induction envs as [|env envs IH]; intros a Hve Hdet; [constructor|].
    cbn [runTicks].
    assert (Hst : TickSpec.stalled env a = true).
    { unfold TickSpec.stalled. rewrite Hve, andb_false_r. reflexivity. }
    destruct (ARApp_tick_stalled env a Hst) as (Hd & _ & _ & Hev & _).
    destruct (ARApp_tick_setup env a) as (_ & Hve' & _).
    destruct (ARApp.tick env a) as [a' es]. cbn [fst snd] in *.
    constructor.
    - split; [congruence | exact Hev].
    - apply IH; congruence. }
  apply Hgen; reflexivity.
Qed.

Lemma stalled_tick_keeps_tracking_state_witness :
  let env := ARApp.mkTickEnv 0 2 (Normal tt) (Normal tt) (Normal 1)
               (Normal (true, replicate 16 zero)) (Normal tt) (Normal tt) in
  let a := fst (ARApp.tick markerSeen startState) in
  ARApp.isMarkerDetected a = true
  /\ ARApp.isMarkerDetected (fst (ARApp.tick env a)) = ARApp.isMarkerDetected a
  /\ ARApp.markerGroup (fst (ARApp.tick env a)) = ARApp.markerGroup a
  /\ ARApp.videoMesh (fst (ARApp.tick env a)) = ARApp.videoMesh a
  /\ markerEvents (snd (ARApp.tick env a)) = []
  /\ TickSpec.playbackEvents (snd (ARApp.tick env a)) = [].
Proof.
  intros env a. split; [reflexivity|].
  destruct stalled_tick_keeps_tracking_state as [Htick _].
  apply (Htick env a). reflexivity.
Defined.

Section StartupFacts.
Import Startup.

Lemma poll_spec globals : forall remaining attempts,
  match poll globals attempts remaining with
  | InitCalled k g =>
      (attempts <= k < attempts + remaining)%nat
      /\ librariesLoaded (globals k) = true
      /\ (forall j, (attempts <= j < k)%nat -> librariesLoaded (globals j) = false)
      /\ g = adoptTHREE (globals k)
  | NotLoaded =>
      forall j, (attempts <= j < attempts + remaining)%nat ->
                librariesLoaded (globals j) = false
  end.
Proof.
  induction remaining as [|remaining IH]; intros attempts; cbn [poll].
  - intros j Hj. lia.
  - destruct (librariesLoaded (globals attempts)) eqn:Hl.
    + split; [lia|]. split; [exact Hl|]. split; [intros j Hj; lia | reflexivity].
    + specialize (IH (S attempts)).
      destruct (poll globals (S attempts) remaining) as [k g|].
      * destruct IH as (Hk & Hload & Hbefore & Hg).
        split; [lia|]. split; [exact Hload|]. split; [|exact Hg].
        intros j Hj. destruct (decide (j = attempts)) as [->|Hne]; [exact Hl|].
        apply Hbefore. lia.
      * intros j Hj. destruct (decide (j = attempts)) as [->|Hne]; [exact Hl|].
        apply IH. lia.
Qed.

Lemma adoptTHREE_sets g :
  librariesLoaded g = true -> THREE (adoptTHREE g) = true.
Proof.
  destruct g as [[|] [[|]|] c p]; unfold librariesLoaded, adoptTHREE; cbn;
    rewrite ?andb_false_r; first [reflexivity | discriminate].
Qed.

Lemma ARApp_animate_completes env a :
  exists a' es, ARApp.animate env a = (Normal tt, a', es).
Proof.
  destruct env as [now rs dr pr mn tm ld rd].
  destruct a as [ac ve re mg vm det fc lf el ms vs fps].
  unfold_arapp. tick_cases.
  all: eexists _, _; reflexivity.
Qed.

End StartupFacts.

Section LoaderRunFacts.
Import AssetLoader LoaderSpec.

Lemma dispose_fields name l :
  loadingPromises (dispose name l) = loadingPromises l
  /\ promises (dispose name l) = promises l
  /\ decodes (dispose name l) = decodes l
  /\ suspended (dispose name l) = suspended l
  /\ loadedAssets (dispose name l) = delete name (loadedAssets l).
Proof.
  unfold dispose. destruct (loadedAssets l !! name) eqn:Hn; cbn.
  - repeat split; reflexivity.
  - repeat split; try reflexivity. symmetry. apply delete_id, Hn.
Qed.

Lemma disposeList_fields names : forall l,
  loadingPromises (foldr dispose l names) = loadingPromises l
  /\ promises (foldr dispose l names) = promises l
  /\ decodes (foldr dispose l names) = decodes l
  /\ suspended (foldr dispose l names) = suspended l
  /\ (forall n, loadedAssets (foldr dispose l names) !! n
                = if bool_decide (n ∈ names) then None
                  else loadedAssets l !! n).
Proof.
  induction names as [|name names IH]; intros l; cbn [foldr].
  - repeat split; reflexivity.
  - destruct (IH l) as (H1 & H2 & H3 & H4 & H5).
    destruct (dispose_fields name (foldr dispose l names))
      as (D1 & D2 & D3 & D4 & D5).
    split; [congruence|]. split; [congruence|]. split; [congruence|].
    split; [congruence|].
    intros n. rewrite D5.
    destruct (decide (n = name)) as [->|Hne].
    + rewrite lookup_delete_eq.
      rewrite bool_decide_eq_true_2 by apply list_elem_of_here. reflexivity.
    + rewrite lookup_delete_ne by congruence. rewrite H5.
      destruct (decide (n ∈ names)) as [Hin|Hnin].
      * rewrite !bool_decide_eq_true_2;
          [reflexivity | apply list_elem_of_further, Hin | exact Hin].
      * rewrite !bool_decide_eq_false_2; [reflexivity | | exact Hnin].
        intros Hin. apply elem_of_cons in Hin as [?|?]; congruence.
Qed.

End LoaderRunFacts.

Section PlaybackHelpers.
Import Playback.

Lemma control_result c m a :
  exists m', control c m a
             = (Normal m', a,
                match userDataVideo m, c with
                | Some v, CPlay => if paused v then [VideoPlay] else []
                | Some v, CPause => if paused v then [] else [VideoPause]
                | None, _ => []
                end)
    /\ visible m' = visible m
    /\ match userDataVideo m with
       | Some v =>
           userDataVideo m'
           = Some (mkVideo (match c with CPlay => false | CPause => true end)
                     (currentTime v))
       | None => userDataVideo m' = None
       end.
Proof.
  destruct m as [vis [[[|] ct]|]], c; cbn; eexists;
    (split; [reflexivity|]); split; reflexivity.
Qed.

Lemma Qle_bool_false p q : Qle_bool p q = false -> (q < p)%Q.
Proof.
  intros H. apply Qnot_le_lt. intros Hle.
  apply Qle_bool_iff in Hle. congruence.
Qed.

End PlaybackHelpers.

(** X10. [waitForARJS] calls [init] at the first of its at most 100 looks
    at which THREEx, ARController, ARCameraParam and a THREE are all
    there, and [window.THREE] is set by then (adopted from THREEx if
    need be); it gives up with an error exactly when none of the 100
    looks finds them, whatever appears later. *)
Theorem waitForARJS_first_ready_poll globals :
  match Startup.waitForARJS globals with
  | Startup.InitCalled k g =>
      (k < Startup.maxAttempts)%nat
      /\ Startup.librariesLoaded (globals k) = true
      /\ (forall j, (j < k)%nat -> Startup.librariesLoaded (globals j) = false)
      /\ g = Startup.adoptTHREE (globals k)
      /\ Startup.THREE g = true
  | Startup.NotLoaded =>
      forall j, (j < Startup.maxAttempts)%nat ->
                Startup.librariesLoaded (globals j) = false
  end.
Proof.
  unfold Startup.waitForARJS.
  pose proof (poll_spec globals Startup.maxAttempts 0) as H.
  destruct (Startup.poll globals 0 Startup.maxAttempts) as [k g|].
  - destruct H as (Hk & Hl & Hb & Hg).
    split; [lia|]. split; [exact Hl|]. split; [intros j Hj; apply Hb; lia|].
    split; [exact Hg|]. rewrite Hg. apply adoptTHREE_sets, Hl.
  - intros j Hj. apply H. lia.
Qed.

(** X11. [init] never throws. It starts the animation loop exactly when
    the scene, the camera check, the AR controller and the video asset
    all succeed: the status is then Ready and the first frame runs on
    the state [ARApp.initial] describes, with a camera video only if the
    stream could be acquired. Otherwise no frame is ever requested, the
    status line shows the error in the marker-lost style, and a failed
    camera check leaves the application without AR controller. *)
Theorem init_starts_loop_iff_steps_succeed env t :
  let '(r, p, es) := Startup.init env (Startup.constructed t) in
  r = Normal tt
  /\ (if Startup.stepsSucceed env
      then exists video,
             Startup.videoAsset env = Normal video
             /\ Startup.statusText p = "Ready"%string
             /\ Startup.statusClass p = "marker-found"%string
             /\ (Startup.app p, es)
                = ARApp.tick (Startup.firstFrame env)
                    (ARApp.initial t (Startup.streamAcquired env) video)
      else es = []
           /\ Startup.statusClass p = "marker-lost"%string
           /\ (exists msg, Startup.statusText p = ("Error: " ++ msg)%string)
           /\ ARApp.isMarkerDetected (Startup.app p) = false
           /\ ARApp.videoMesh (Startup.app p) = None
           /\ (Startup.cameraAccess env <> Normal tt ->
               ARApp.arController (Startup.app p) = false)).
Proof.
  destruct env as [[[]|e1] [[]|e2] [[]|e3] [[]|e4] [[]|e5] [v|e6] ff].
  all: unfold Startup.stepsSucceed, Startup.streamAcquired.
  all: cbn [Startup.rendererCreated Startup.sceneFilled Startup.cameraAccess
            Startup.controller Startup.stream Startup.videoAsset
            Startup.firstFrame].
  all: unfold Startup.init, Startup.initThreeJS, Startup.checkCameraAccess,
         Startup.initARJS, Startup.loadVideoAssets, Startup.updateStatus,
         Startup.liftApp, Startup.constructed, ARApp.tick.
  all: unfold_monad.
  all: cbn -[ARApp.animate String.append].
  all: try match goal with
    | |- context [ARApp.animate ?e ?a] =>
        destruct (ARApp_animate_completes e a) as (a' & es & Han);
        rewrite Han; cbn -[ARApp.animate String.append];
        split; [reflexivity|]; eexists;
        split; [reflexivity|]; split; [reflexivity|]; split; [reflexivity|];
        match goal with
        | |- context [ARApp.initial ?t0 ?b ?v0] =>
            assert (Heq : ARApp.animate e (ARApp.initial t0 b v0)
                          = (Normal tt, a', es)) by exact Han;
            rewrite Heq; reflexivity
        end
    end.
  all: split; [reflexivity|].
  all: split; [reflexivity|].
  all: split; [reflexivity|].
  all: split; [eexists; reflexivity|].
  all: split; [reflexivity|].
  all: split; [reflexivity|].
  all: first [ reflexivity | intros _; reflexivity | intros H; now destruct H ].
Qed.

(** A denied stream inside [initARJS] is only warned about: [init] reports
    Ready and starts the loop without a camera video. *)
Example init_without_stream_reports_ready :
  let env := Startup.mkInitEnv (Normal tt) (Normal tt) (Normal tt) (Normal tt)
               (Thrown "NotAllowedError") (Normal (Some sampleVideo))
               markerSeen in
  let '(r, p, es) := Startup.init env (Startup.constructed 0) in
  r = Normal tt
  /\ Startup.statusText p = "Ready"%string
  /\ ARApp.videoElement (Startup.app p) = false
  /\ ARApp.isMarkerDetected (Startup.app p) = false.
Proof. cbn. repeat split; reflexivity. Qed.

(** X12. Whatever sequence of calls, settlements, resumptions and
    disposals a fresh loader goes through, its bookkeeping stays
    consistent: the suspended calls are exactly the registered loads,
    every registered load has a promise, and no name is at once cached
    and being loaded. *)
Theorem loader_bookkeeping_consistent evs :
  consistent (AssetLoader.exec AssetLoader.empty evs)
  /\ LoaderSpec.cachedOrLoading (AssetLoader.exec AssetLoader.empty evs).
Proof.
  assert (Hc : consistent (AssetLoader.exec AssetLoader.empty evs))
    by apply consistent_exec, consistent_empty.
  split; [exact Hc|].
  destruct Hc as (_ & Hl & _).
  intros name [a Ha].
  destruct (AssetLoader.loadingPromises _ !! name) as [p|] eqn:Hp;
    [|reflexivity].
  apply Hl in Hp. congruence.
Qed.

(** X13. A failed load is not remembered. When the promise of the first
    call for a name is rejected, that call resumes by throwing the error
    and stores nothing; the callers that adopted the promise get the same
    error; the pending entry is removed all the same, so that the next
    call for the name starts a new load instead of returning the old
    failure. *)
Theorem failed_load_is_retried (l : AssetLoader.Loader) (url name : string) :
  consistent l ->
  AssetLoader.loadedAssets l !! name = None ->
  AssetLoader.loadingPromises l !! name = None ->
  exists p l1,
    AssetLoader.loadVideoTexture url name l = (l1, AssetLoader.Awaiting p)
    /\ forall evs e,
         firstStillWaiting name evs ->
         let l2 := AssetLoader.exec l1 evs in
         AssetLoader.promises l2 !! p = Some (AssetLoader.Rejected e) ->
         exists l3,
           AssetLoader.resume name p l2 = Some (l3, Thrown e)
           /\ AssetLoader.outcomeValue l3 (AssetLoader.Adopted p)
              = Some (Thrown e)
           /\ AssetLoader.loadedAssets l3 !! name = None
           /\ forall url2, exists p2 l4,
                AssetLoader.loadVideoTexture url2 name l3
                = (l4, AssetLoader.Awaiting p2)
                /\ p2 <> p
                /\ AssetLoader.promises l4 !! p2 = Some AssetLoader.Pending
                /\ AssetLoader.decodesOf name l4
                   = AssetLoader.decodesOf name l
                     ++ [(url, name); (url2, name)].
Proof.
  intros Hc Ha Hp.
  set (p := length (AssetLoader.decodes l)).
  set (l1 := AssetLoader.mkLoader (AssetLoader.loadedAssets l)
               (<[name := p]> (AssetLoader.loadingPromises l))
               (<[p := AssetLoader.Pending]> (AssetLoader.promises l))
               (AssetLoader.decodes l ++ [(url, name)])
               (AssetLoader.suspended l ++ [(name, p)])).
  assert (Hcall : AssetLoader.loadVideoTexture url name l
                  = (l1, AssetLoader.Awaiting p))
    by (unfold AssetLoader.loadVideoTexture; rewrite Ha, Hp; reflexivity).
  assert (Hc1 : consistent l1).
  { pose proof (consistent_call url name l Hc) as H.
    rewrite Hcall in H. exact H. }
  exists p, l1. split; [exact Hcall|].
  intros evs e Hw l2 Hrej.
  destruct (in_flight_exec name p evs l1) as (Ha2 & Hp2 & Hd2);
    [exact Ha | apply lookup_insert_eq | exact Hw |].
  fold l2 in Ha2, Hp2, Hd2.
  assert (Hc2 : consistent l2) by (apply consistent_exec, Hc1).
  assert (Hfr : existsb (AssetLoader.isFrame name p) (AssetLoader.suspended l2)
                = true).
  { apply frame_suspended. destruct Hc2 as (Hs & _). apply Hs, Hp2. }
  unfold AssetLoader.resume. rewrite Hfr, Hrej.
  eexists. split; [reflexivity|].
  set (l3 := AssetLoader.mkLoader _ _ _ _ _).
  split; [unfold AssetLoader.outcomeValue; subst l3; cbn; rewrite Hrej;
          reflexivity|].
  split; [exact Ha2|].
  intros url2.
  assert (Hp3 : AssetLoader.loadingPromises l3 !! name = None)
    by (subst l3; cbn; apply lookup_delete_eq).
  unfold AssetLoader.loadVideoTexture.
  change (AssetLoader.loadedAssets l3) with (AssetLoader.loadedAssets l2).
  rewrite Ha2, Hp3.
  eexists _, _. split; [reflexivity|].
  cbn [AssetLoader.promises AssetLoader.decodes].
  destruct Hc2 as (_ & _ & Hprom & Hlen).
  assert (Hlt : (p < length (AssetLoader.decodes l2))%nat).
  { apply Hlen. eexists. exact Hrej. }
  split; [subst l3; cbn; lia|].
  split; [apply lookup_insert_eq|].
  unfold AssetLoader.decodesOf in *. cbn [AssetLoader.decodes].
  rewrite List.filter_app.
  change (AssetLoader.decodes l3) with (AssetLoader.decodes l2).
  rewrite Hd2. subst l1. cbn [AssetLoader.decodes].
  rewrite List.filter_app. cbn.
  rewrite !bool_decide_eq_true_2 by reflexivity.
  rewrite <- app_assoc. reflexivity.
Qed.

Lemma failed_load_is_retried_witness :
  let url := "/videos/rickroll.mp4"%string in
  let name := "rickroll"%string in
  exists p l1,
    AssetLoader.loadVideoTexture url name AssetLoader.empty
    = (l1, AssetLoader.Awaiting p)
    /\ exists l3,
         AssetLoader.resume name p
           (AssetLoader.settle p (AssetLoader.Rejected "decode error") l1)
         = Some (l3, Thrown "decode error")
         /\ AssetLoader.loadedAssets l3 !! name = None
         /\ exists p2 l4,
              AssetLoader.loadVideoTexture url name l3
              = (l4, AssetLoader.Awaiting p2)
              /\ p2 <> p.
Proof.
  intros url name.
  destruct (failed_load_is_retried AssetLoader.empty url name
              consistent_empty eq_refl eq_refl)
    as (p & l1 & Hcall & Hrest).
  exists p, l1. split; [exact Hcall|].
  injection Hcall as <- <-.
  destruct (Hrest [AssetLoader.Settle 0%nat (AssetLoader.Rejected "decode error")]
              "decode error"%string)
    as (l3 & Hres & _ & Hnone & Hnext).
  - constructor; [exact I | constructor].
  - reflexivity.
  - exists l3. split; [exact Hres|]. split; [exact Hnone|].
    destruct (Hnext url) as (p2 & l4 & Hc & Hne & _).
    exists p2, l4. split; [exact Hc | exact Hne].
Defined.

(** X14. Disposal only empties the cache. [dispose(name)] of a cached
    asset makes the next call for the name start a new load, and leaves
    every other cached asset and every pending load alone;
    [disposeAll] leaves no asset cached, and a load that was pending
    meanwhile is still registered and still waited for. *)
Theorem dispose_forgets_cached_assets_only (l : AssetLoader.Loader) :
  consistent l ->
  (forall name url a,
      AssetLoader.loadedAssets l !! name = Some a ->
      let l1 := AssetLoader.dispose name l in
      (exists p, snd (AssetLoader.loadVideoTexture url name l1)
                 = AssetLoader.Awaiting p
                 /\ AssetLoader.promises l !! p = None)
      /\ (forall other, other <> name ->
            AssetLoader.loadedAssets l1 !! other
            = AssetLoader.loadedAssets l !! other)
      /\ AssetLoader.loadingPromises l1 = AssetLoader.loadingPromises l
      /\ AssetLoader.suspended l1 = AssetLoader.suspended l)
  /\ (let l2 := LoaderSpec.disposeAll l in
      AssetLoader.loadedAssets l2 = ∅
      /\ AssetLoader.loadingPromises l2 = AssetLoader.loadingPromises l
      /\ AssetLoader.promises l2 = AssetLoader.promises l
      /\ AssetLoader.suspended l2 = AssetLoader.suspended l
      /\ AssetLoader.decodes l2 = AssetLoader.decodes l
      /\ consistent l2).
Proof.
  intros Hc. split.
  - intros name url a Ha l1.
    destruct (dispose_fields name l) as (D1 & D2 & D3 & D4 & D5).
    fold l1 in D1, D2, D3, D4, D5.
    destruct Hc as (Hs & Hl & Hp & Hlen).
    assert (Hno : AssetLoader.loadingPromises l !! name = None).
    { destruct (AssetLoader.loadingPromises l !! name) eqn:E; [|reflexivity].
      apply Hl in E. congruence. }
    split; [|split; [|split; [exact D1 | exact D4]]].
    + unfold AssetLoader.loadVideoTexture.
      rewrite D5, lookup_delete_eq, D1, Hno. cbn.
      eexists. split; [reflexivity|].
      rewrite D3.
      destruct (AssetLoader.promises l !! length (AssetLoader.decodes l))
        eqn:E; [|exact E].
      assert (is_Some (AssetLoader.promises l
                         !! length (AssetLoader.decodes l))) as Hsome
        by (eexists; exact E).
      apply Hlen in Hsome. lia.
    + intros other Hne. rewrite D5. apply lookup_delete_ne. congruence.
  - cbv zeta. unfold LoaderSpec.disposeAll.
    destruct (disposeList_fields
                (fst <$> map_to_list (AssetLoader.loadedAssets l)) l)
      as (H1 & H2 & H3 & H4 & H5).
    set (l2 := foldr AssetLoader.dispose l _) in *.
    assert (Hempty : AssetLoader.loadedAssets l2 = ∅).
    { apply map_eq. intros n. rewrite H5, lookup_empty.
      destruct (AssetLoader.loadedAssets l !! n) as [a|] eqn:Hn.
      - rewrite bool_decide_eq_true_2; [reflexivity|].
        apply list_elem_of_fmap. exists (n, a). split; [reflexivity|].
        apply elem_of_map_to_list, Hn.
      - destruct (bool_decide _); reflexivity. }
    split; [exact Hempty|]. split; [exact H1|]. split; [exact H2|].
    split; [exact H4|]. split; [exact H3|].
    destruct Hc as (Hs & Hl & Hp & Hlen).
    unfold consistent. rewrite H1, H2, H3, H4, Hempty.
    split; [exact Hs|]. split; [intros; apply lookup_empty|].
    split; [exact Hp | exact Hlen].
Qed.

Lemma dispose_forgets_cached_assets_only_witness :
  let name := "rickroll"%string in
  let a := AssetLoader.mkAsset 1 2 in
  let l := AssetLoader.exec AssetLoader.empty
             [AssetLoader.Call "/videos/rickroll.mp4" name;
              AssetLoader.Settle 0%nat (AssetLoader.Fulfilled a);
              AssetLoader.Resume name 0%nat;
              AssetLoader.Call "/videos/other.mp4" "other"] in
  AssetLoader.loadedAssets l !! name = Some a
  /\ (exists p, snd (AssetLoader.loadVideoTexture "/videos/rickroll.mp4" name
                       (AssetLoader.dispose name l))
                = AssetLoader.Awaiting p
                /\ AssetLoader.promises l !! p = None)
  /\ AssetLoader.loadedAssets (LoaderSpec.disposeAll l) = ∅
  /\ AssetLoader.loadingPromises (LoaderSpec.disposeAll l)
     = AssetLoader.loadingPromises l.
Proof.
  intros name a l.
  assert (Ha : AssetLoader.loadedAssets l !! name = Some a) by reflexivity.
  destruct (dispose_forgets_cached_assets_only l
              (consistent_exec _ _ consistent_empty)) as [Hone Hall].
  split; [exact Ha|].
  destruct (Hone name "/videos/rickroll.mp4"%string a Ha) as (Hnext & _).
  split; [exact Hnext|].
  destruct Hall as (Hempty & Hload & _).
  split; [exact Hempty | exact Hload].
Defined.

(** X15. [playVideo] and [pauseVideo] never repeat a call: over any
    sequence of the two on a mesh, [video.play()] is called only on a
    paused video and [video.pause()] only on a playing one, so the calls
    made alternate, starting from the video's state; the playback
    position and the mesh's visibility are left alone, the state of the
    application is not touched and nothing is thrown. On a mesh without
    video nothing is called. *)
Theorem video_controls_alternate cs m a :
  exists m' es,
    Playback.controls cs m a = (Normal m', a, es)
    /\ visible m' = visible m
    /\ (currentTime <$> userDataVideo m') = (currentTime <$> userDataVideo m)
    /\ match userDataVideo m with
       | Some v => Playback.alternating (paused v) es
       | None => es = []
       end.
Proof.
  revert m. induction cs as [|c cs IH]; intros m.
  - exists m, []. cbn. split; [reflexivity|]. split; [reflexivity|].
    split; [reflexivity|]. destruct (userDataVideo m); [constructor | reflexivity].
  - destruct (control_result c m a) as (m1 & Hc & Hvis & Hvid).
    destruct (IH m1) as (m' & es & Hrest & Hvis' & Hct & Halt).
    cbn [Playback.controls]. unfold bind. rewrite Hc, Hrest.
    eexists _, _. split; [reflexivity|]. split; [congruence|].
    destruct (userDataVideo m) as [v|] eqn:Hv.
    + rewrite Hvid in Hct, Halt. cbn in Hct, Halt.
      split; [exact Hct|].
      destruct c, (paused v); cbn; try constructor; exact Halt.
    + rewrite Hvid in Hct, Halt. split; [exact Hct|].
      subst es. destruct c; reflexivity.
Qed.

(** X16. [setVolume] never assigns a volume outside [0, 1]: any number,
    infinities included, is brought into the interval and a volume
    already inside it is kept; only NaN passes through as it is. A mesh
    without video gets no assignment. *)
Theorem setVolume_clamps m volume :
  match Playback.setVolume m volume with
  | None => userDataVideo m = None
  | Some assigned =>
      is_Some (userDataVideo m)
      /\ match volume with
         | JNum q =>
             exists r, assigned = JNum r
                       /\ (0 <= r)%Q /\ (r <= 1)%Q
                       /\ ((0 <= q)%Q -> (q <= 1)%Q -> (r == q)%Q)
                       /\ ((q < 0)%Q -> (r == 0)%Q)
                       /\ ((1 < q)%Q -> (r == 1)%Q)
         | JInf negative =>
             assigned = JNum (if negative then Qmake 0 1 else Qmake 1 1)
         | JNaN => assigned = JNaN
         end
  end.
Proof.
  unfold Playback.setVolume. destruct (userDataVideo m) as [v|]; [|reflexivity].
  split; [eexists; reflexivity|].
  destruct volume as [q| |[|]]; try reflexivity.
  unfold Playback.jsmin, Playback.jsmax, Playback.jsle.
  destruct (Qle_bool 1 q) eqn:H1.
  - apply Qle_bool_iff in H1. cbn.
    exists (Qmake 1 1). split; [reflexivity|]. repeat split; intros; lra.
  - apply Qle_bool_false in H1.
    destruct (Qle_bool 0 q) eqn:H0.
    + apply Qle_bool_iff in H0.
      exists q. split; [reflexivity|]. repeat split; intros; lra.
    + apply Qle_bool_false in H0.
      exists (Qmake 0 1). split; [reflexivity|]. repeat split; intros; lra.
Qed.

(** X17. [toggleVideo] of the test page flips every video of the document
    between playing and paused with exactly one call per video and
    without moving any playback position; toggling twice gives back the
    videos as they were. *)
Theorem toggleVideo_involutive videos :
  fst (Playback.toggleVideo (fst (Playback.toggleVideo videos))) = videos
  /\ length (snd (Playback.toggleVideo videos)) = length videos
  /\ Forall2 (fun v v' => paused v' = negb (paused v)
                          /\ currentTime v' = currentTime v)
       videos (fst (Playback.toggleVideo videos))
  /\ Forall2 (fun v e => e = if paused v then VideoPlay else VideoPause)
       videos (snd (Playback.toggleVideo videos)).
Proof.
  unfold Playback.toggleVideo. cbn [fst snd].
  induction videos as [|[[|] ct] videos (IH1 & IH2 & IH3 & IH4)].
  - repeat split; constructor.
  - cbn in *. split; [f_equal; exact IH1|]. split; [f_equal; exact IH2|].
    split; constructor; auto.
  - cbn in *. split; [f_equal; exact IH1|]. split; [f_equal; exact IH2|].
    split; constructor; auto.
Qed.





